(** * cacher: a shallow embedding of the cache table and its registry

    The Go package keeps named tables ([CacheTable]) of heap-allocated items
    ([*CacheItem]) behind a [sync.RWMutex], fires observer callbacks on
    admission and deletion, loads missing keys through a user-supplied loader
    and sweeps expired items in [ExpirationCheck].

    The embedding is sequential: one goroutine runs one operation at a time.
    Everything the operations touch is explicit state:
    - the table record, with the state of its mutex;
    - a heap of items, so that a [*CacheItem] is an address and two holders
      of the same address see the same item;
    - the loader's environment (a loader is a Go closure and may keep state);
    - the clock read by [time.Now], which stands still while one operation
      runs;
    - the sequence of callback invocations, each recorded together with the
      table as it was when the callback was entered;
    - the lines handed to the logger.

    Callbacks are opaque: invoking one is recorded, and it is assumed not to
    call back into the table nor to write to items.  The per-item mutex is
    taken and released inside single functions and is not modelled.  Of the
    janitor only its installation is modelled: the goroutine with its ticker
    and stop channel is a matter of scheduling, and all it does to a table
    is call [ExpirationCheck]. *)

From Stdlib Require Import ZArith Lia.
From stdpp Require Import base option list gmap strings sorting pretty.

(** ** Machine integers, durations and instants *)

(** [time.Duration] is an [int64] count of nanoseconds. *)
Abbreviation Duration := Z (only parsing).
(** An instant, in nanoseconds since an arbitrary epoch. *)
Abbreviation Time := Z (only parsing).
(** The address of a [CacheItem] on the heap. *)
Abbreviation loc := nat (only parsing).

Definition minInt64 : Z := - 2 ^ 63.
Definition maxInt64 : Z := 2 ^ 63 - 1.

(** Two's complement wrap-around of [int64] arithmetic. *)
Definition wrap64 (z : Z) : Z := ((z + 2 ^ 63) mod 2 ^ 64 - 2 ^ 63)%Z.

(** [t.Sub(u)]: the difference, saturated to the range of [Duration]. *)
Definition Time_Sub (t u : Time) : Duration :=
  if (t - u <? minInt64)%Z then minInt64
  else if (maxInt64 <? t - u)%Z then maxInt64
  else (t - u)%Z.

(** The Go expression [lifeSpan*2/3]: the product wraps, the quotient
    truncates towards zero. *)
Definition two_thirds (lifeSpan : Duration) : Duration :=
  Z.quot (wrap64 (lifeSpan * 2)) 3.

(** ** Errors *)

(** Modelled from the spec: errors.go is not among the sources.  Spec
    section 6 names the package's one error value, [ErrKeyNotFound]; any
    other error is made by the caller's loader. *)
Inductive error :=
  | ErrKeyNotFound
  | ErrUser (msg : string).

(** ** The mutex *)

Inductive RWMutex :=
  | Unlocked
  | WLocked
  | RLocked (readers : nat).   (* [S readers] goroutines hold the read lock *)

(** What stops a sequential run: a [Lock] that can never be granted, or a
    run-time panic. *)
Inductive fault :=
  | Deadlock
  | UnlockOfUnlocked
  | NilFunc
  | NilDeref.

Definition RWMutex_Lock (m : RWMutex) : fault + RWMutex :=
  match m with
  | Unlocked => inr WLocked
  | _ => inl Deadlock
  end.

Definition RWMutex_Unlock (m : RWMutex) : fault + RWMutex :=
  match m with
  | WLocked => inr Unlocked
  | _ => inl UnlockOfUnlocked
  end.

Definition RWMutex_RLock (m : RWMutex) : fault + RWMutex :=
  match m with
  | Unlocked => inr (RLocked 0)
  | RLocked n => inr (RLocked (S n))
  | WLocked => inl Deadlock
  end.

Definition RWMutex_RUnlock (m : RWMutex) : fault + RWMutex :=
  match m with
  | RLocked 0 => inr Unlocked
  | RLocked (S n) => inr (RLocked n)
  | _ => inl UnlockOfUnlocked
  end.

(** ** A state-and-fault monad for the operations *)

Inductive outcome (S A : Type) :=
  | Ok (a : A) (s : S)
  | Fault (f : fault).
Arguments Ok {S A} a s.
Arguments Fault {S A} f.

Definition M (S A : Type) : Type := S → outcome S A.

Global Instance M_ret {S} : MRet (M S) := λ A a s, Ok a s.
Global Instance M_bind {S} : MBind (M S) := λ A B k m s,
  match m s with
  | Ok a s' => k a s'
  | Fault f => Fault f
  end.

Definition get {S} : M S S := λ s, Ok s s.
Definition modify {S} (f : S → S) : M S unit := λ s, Ok tt (f s).
Definition raise {S A} (f : fault) : M S A := λ _, Fault f.

(** A Go [for _, x := range l] whose body is an action. *)
Fixpoint forM_ {S A} (l : list A) (body : A → M S unit) : M S unit :=
  match l with
  | [] => mret tt
  | x :: l' => body x ;; forM_ l' body
  end.

Ltac unfold_monad :=
  unfold mbind, mret, M_bind, M_ret, get, modify, raise in *.

(** ** The data model *)

Section cacher.
Context {K : Type} `{Countable K}.        (* cache keys: hashable values *)
Context {V : Type}.                        (* cached values; [None] is Go's nil *)
Context {W : Type}.                        (* what a loader closure captures *)
Context {ItemCb : Type}.                   (* identities of table-level callbacks *)
Context {KeyCb : Type}.                    (* identities of entry-level callbacks *)

(** Modelled from the spec: the item record of cacheitem.go, which is not
    among the sources.  Spec section 3 lists its fields; the table code reads
    [key], [lifeSpan], [createdOn], [accessedOn], [accessCount] and
    [aboutToExpire] by these names. *)
Record CacheItem := {
  key : K;
  data : option V;
  lifeSpan : Duration;
  createdOn : Time;
  accessedOn : Time;
  accessCount : Z;
  aboutToExpire : list KeyCb;
}.

(** What [loadData] returns: value, lifespan, error. *)
Definition LoadResult : Type := option V * Duration * option error.
Definition Loader : Type := K → W → LoadResult * W.

Record janitor_t := {
  Interval : Duration;
}.

Record CacheTable := {
  lock : RWMutex;
  name : string;
  items : gmap K loc;
  cleanupInterval : Duration;
  defaultExpiration : Duration;
  logger : option string;
  enableNullData : bool;
  enableAutoLoad : bool;
  janitor : option janitor_t;
  loadData : option Loader;
  addedItem : list ItemCb;
  aboutToDeleteItem : list ItemCb;
}.

(** One callback invocation: the registry the callback was taken from,
    the callback, its argument, and the table as the callback finds it. *)
Inductive Event :=
  | CallAdded (f : ItemCb) (item : loc) (t : CacheTable)
  | CallAboutToDelete (f : ItemCb) (item : loc) (t : CacheTable)
  | CallAboutToExpire (f : KeyCb) (k : K) (t : CacheTable).

(** The five lines the table can log. *)
Inductive LogMsg :=
  | LogExpirationTriggered (interval : Duration) (table : string)
  | LogExpirationInstalled (table : string)
  | LogAdding (k : K) (span : Duration) (table : string)
  | LogDeleting (k : K) (created : Time) (hits : Z) (table : string)
  | LogFlushing (table : string).

Record State := {
  table : CacheTable;
  heap : list CacheItem;
  env : W;
  clock : Time;
  trace : list Event;
  logged : list LogMsg;
}.

(** *** Field updates *)

Definition set_lock (x : RWMutex) (t : CacheTable) : CacheTable :=
  Build_CacheTable x (name t) (items t) (cleanupInterval t)
    (defaultExpiration t) (logger t) (enableNullData t) (enableAutoLoad t)
    (janitor t) (loadData t) (addedItem t) (aboutToDeleteItem t).
Definition set_items (x : gmap K loc) (t : CacheTable) : CacheTable :=
  Build_CacheTable (lock t) (name t) x (cleanupInterval t)
    (defaultExpiration t) (logger t) (enableNullData t) (enableAutoLoad t)
    (janitor t) (loadData t) (addedItem t) (aboutToDeleteItem t).
Definition set_cleanupInterval (x : Duration) (t : CacheTable) : CacheTable :=
  Build_CacheTable (lock t) (name t) (items t) x
    (defaultExpiration t) (logger t) (enableNullData t) (enableAutoLoad t)
    (janitor t) (loadData t) (addedItem t) (aboutToDeleteItem t).
Definition set_logger (x : option string) (t : CacheTable) : CacheTable :=
  Build_CacheTable (lock t) (name t) (items t) (cleanupInterval t)
    (defaultExpiration t) x (enableNullData t) (enableAutoLoad t)
    (janitor t) (loadData t) (addedItem t) (aboutToDeleteItem t).
Definition set_enableNullData (x : bool) (t : CacheTable) : CacheTable :=
  Build_CacheTable (lock t) (name t) (items t) (cleanupInterval t)
    (defaultExpiration t) (logger t) x (enableAutoLoad t)
    (janitor t) (loadData t) (addedItem t) (aboutToDeleteItem t).
Definition set_enableAutoLoad (x : bool) (t : CacheTable) : CacheTable :=
  Build_CacheTable (lock t) (name t) (items t) (cleanupInterval t)
    (defaultExpiration t) (logger t) (enableNullData t) x
    (janitor t) (loadData t) (addedItem t) (aboutToDeleteItem t).
Definition set_janitor (x : option janitor_t) (t : CacheTable) : CacheTable :=
  Build_CacheTable (lock t) (name t) (items t) (cleanupInterval t)
    (defaultExpiration t) (logger t) (enableNullData t) (enableAutoLoad t)
    x (loadData t) (addedItem t) (aboutToDeleteItem t).
Definition set_loadData (x : option Loader) (t : CacheTable) : CacheTable :=
  Build_CacheTable (lock t) (name t) (items t) (cleanupInterval t)
    (defaultExpiration t) (logger t) (enableNullData t) (enableAutoLoad t)
    (janitor t) x (addedItem t) (aboutToDeleteItem t).
Definition set_addedItem (x : list ItemCb) (t : CacheTable) : CacheTable :=
  Build_CacheTable (lock t) (name t) (items t) (cleanupInterval t)
    (defaultExpiration t) (logger t) (enableNullData t) (enableAutoLoad t)
    (janitor t) (loadData t) x (aboutToDeleteItem t).
Definition set_aboutToDeleteItem (x : list ItemCb) (t : CacheTable) : CacheTable :=
  Build_CacheTable (lock t) (name t) (items t) (cleanupInterval t)
    (defaultExpiration t) (logger t) (enableNullData t) (enableAutoLoad t)
    (janitor t) (loadData t) (addedItem t) x.

Definition set_table (x : CacheTable) (s : State) : State :=
  Build_State x (heap s) (env s) (clock s) (trace s) (logged s).
Definition set_heap (x : list CacheItem) (s : State) : State :=
  Build_State (table s) x (env s) (clock s) (trace s) (logged s).
Definition set_env (x : W) (s : State) : State :=
  Build_State (table s) (heap s) x (clock s) (trace s) (logged s).
Definition set_trace (x : list Event) (s : State) : State :=
  Build_State (table s) (heap s) (env s) (clock s) x (logged s).
Definition set_logged (x : list LogMsg) (s : State) : State :=
  Build_State (table s) (heap s) (env s) (clock s) (trace s) x.

Definition set_accessed (now : Time) (it : CacheItem) : CacheItem :=
  Build_CacheItem (key it) (data it) (lifeSpan it) (createdOn it) now
    (wrap64 (accessCount it + 1)) (aboutToExpire it).
Definition set_aboutToExpire (x : list KeyCb) (it : CacheItem) : CacheItem :=
  Build_CacheItem (key it) (data it) (lifeSpan it) (createdOn it)
    (accessedOn it) (accessCount it) x.

(** *** Primitive actions *)

(** A method of the table's embedded [sync.RWMutex]. *)
Definition mutex_op (op : RWMutex → fault + RWMutex) : M State unit := λ s,
  match op (lock (table s)) with
  | inr m => Ok tt (set_table (set_lock m (table s)) s)
  | inl f => Fault f
  end.
Definition Lock : M State unit := mutex_op RWMutex_Lock.
Definition Unlock : M State unit := mutex_op RWMutex_Unlock.
Definition RLock : M State unit := mutex_op RWMutex_RLock.
Definition RUnlock : M State unit := mutex_op RWMutex_RUnlock.

Definition the_table : M State CacheTable := λ s, Ok (table s) s.
Definition update_table (f : CacheTable → CacheTable) : M State unit :=
  modify (λ s, set_table (f (table s)) s).

(** [time.Now()]. *)
Definition time_Now : M State Time := λ s, Ok (clock s) s.

(** Reading through a [*CacheItem]. *)
Definition deref (p : loc) : M State CacheItem := λ s,
  match heap s !! p with
  | Some it => Ok it s
  | None => Fault NilDeref
  end.

(** Entering a callback: the invocation is recorded with the table as it
    is at that moment. *)
Definition call (e : CacheTable → Event) : M State unit :=
  modify (λ s, set_trace (trace s ++ [e (table s)]) s).

(** Calling the loader closure: it returns its triple and may change what
    it captured. *)
Definition call_loader (f : Loader) (k : K) : M State LoadResult := λ s,
  let '(r, w) := f k (env s) in Ok r (set_env w s).

(** [table.log(v...)]: a line reaches the logger only when one is set. *)
Definition written (m : LogMsg) (s : State) : State :=
  match logger (table s) with
  | None => s
  | Some _ => set_logged (logged s ++ [m]) s
  end.
Definition log (m : LogMsg) : M State unit := modify (written m).

(** ** Items *)

(** Modelled from the spec: [NewCacheItem] of cacheitem.go, which is not
    among the sources.  Spec 4.2: a new entry has
    [createdOn = accessedOn = now], [accessCount = 0] and no observers.
    The item is allocated on the heap and its address returned. *)
Definition NewCacheItem (key : K) (lifeSpan : Duration) (data : option V)
    : M State loc :=
  t ← time_Now;
  s ← get;
  modify (set_heap (heap s ++
    [Build_CacheItem key data lifeSpan t t 0 []]));;
  mret (length (heap s)).

(** Modelled from the spec: [KeepAlive] of cacheitem.go (spec 4.4) sets
    [accessedOn = now] and adds one to [accessCount]. *)
Definition KeepAlive (r : loc) : M State unit :=
  it ← deref r;
  now ← time_Now;
  modify (λ s, set_heap (<[r := set_accessed now it]> (heap s)) s).

(** Modelled from the spec: the entry-level registry of cacheitem.go (spec
    4.8), with the same three operations as the table-level registries. *)
Definition RemoveAboutToExpireCallback (r : loc) : M State unit :=
  it ← deref r;
  modify (λ s, set_heap (<[r := set_aboutToExpire [] it]> (heap s)) s).

Definition AddAboutToExpireCallback (r : loc) (f : KeyCb) : M State unit :=
  it ← deref r;
  modify (λ s,
    set_heap (<[r := set_aboutToExpire (aboutToExpire it ++ [f]) it]> (heap s)) s).

Definition SetAboutToExpireCallback (r : loc) (f : KeyCb) : M State unit :=
  it ← deref r;
  (if bool_decide (0 < length (aboutToExpire it))
   then RemoveAboutToExpireCallback r else mret tt);;
  AddAboutToExpireCallback r f.

(** Modelled from the spec: [singleflight.Group.Do], whose package is not
    among the sources.  Spec 4.6: with no flight in progress for the key,
    the function runs exactly once and its result is returned; a
    sequential caller never finds a flight in progress. *)
Definition singleflight_Do {A} (key : K) (fn : M State A) : M State A := fn.

(** ** Table operations *)

Definition Count : M State nat :=
  RLock;;
  t ← the_table;
  RUnlock;;
  mret (size (items t)).

Definition EnableNullData (b : bool) : M State unit :=
  Lock;;
  update_table (set_enableNullData b);;
  Unlock.

Definition SetDataLoader (f : option Loader) : M State unit :=
  Lock;;
  update_table (set_enableAutoLoad true);;
  update_table (set_loadData f);;
  Unlock.

Definition RemoveAddedItemCallbacks : M State unit :=
  Lock;;
  update_table (set_addedItem []);;
  Unlock.

Definition AddAddedItemCallback (f : ItemCb) : M State unit :=
  Lock;;
  update_table (λ t, set_addedItem (addedItem t ++ [f]) t);;
  Unlock.

Definition SetAddedItemCallback (f : ItemCb) : M State unit :=
  t ← the_table;
  (if bool_decide (0 < length (addedItem t))
   then RemoveAddedItemCallbacks else mret tt);;
  Lock;;
  update_table (λ t, set_addedItem (addedItem t ++ [f]) t);;
  Unlock.

Definition RemoveAboutToDeleteItemCallback : M State unit :=
  Lock;;
  update_table (set_aboutToDeleteItem []);;
  Unlock.

Definition AddAboutToDeleteItemCallback (f : ItemCb) : M State unit :=
  Lock;;
  update_table (λ t, set_aboutToDeleteItem (aboutToDeleteItem t ++ [f]) t);;
  Unlock.

Definition SetAboutToDeleteItemCallback (f : ItemCb) : M State unit :=
  t ← the_table;
  (if bool_decide (0 < length (aboutToDeleteItem t))
   then RemoveAboutToDeleteItemCallback else mret tt);;
  Lock;;
  update_table (λ t, set_aboutToDeleteItem (aboutToDeleteItem t ++ [f]) t);;
  Unlock.

Definition SetLogger (l : option string) : M State unit :=
  Lock;;
  update_table (set_logger l);;
  Unlock.

(** [addInternal] stores the item and runs the added-item callbacks.  It
    neither takes nor releases the table mutex. *)
Definition addInternal (item : loc) : M State unit :=
  it ← deref item;
  t ← the_table;
  log (LogAdding (key it) (lifeSpan it) (name t));;
  update_table (λ t, set_items (<[key it := item]> (items t)) t);;
  t ← the_table;
  let addedItem := addedItem t in
  forM_ addedItem (λ callback, call (CallAdded callback item)).

Definition Set_ (key : K) (lifeSpan : Duration) (data : option V)
    : M State loc :=
  item ← NewCacheItem key lifeSpan data;
  Lock;;
  addInternal item;;
  Unlock;;
  mret item.

(** [deleteInternal] is entered with the table mutex held; it releases it
    around the callbacks and takes it again for the removal. *)
Definition deleteInternal (key : K) : M State (option loc * option error) :=
  t ← the_table;
  match items t !! key with
  | None => mret (None, Some ErrKeyNotFound)
  | Some r =>
      let aboutToDeleteItem := aboutToDeleteItem t in
      Unlock;;
      forM_ aboutToDeleteItem (λ callback, call (CallAboutToDelete callback r));;
      it ← deref r;
      forM_ (aboutToExpire it) (λ callback, call (CallAboutToExpire callback key));;
      Lock;;
      it ← deref r;
      t ← the_table;
      log (LogDeleting key (createdOn it) (accessCount it) (name t));;
      update_table (λ t, set_items (delete key (items t)) t);;
      mret (Some r, None)
  end.

Definition Delete (key : K) : M State (option loc * option error) :=
  Lock;;
  r ← deleteInternal key;
  Unlock;;
  mret r.

Definition Exists (key : K) : M State bool :=
  RLock;;
  t ← the_table;
  RUnlock;;
  mret (bool_decide (is_Some (items t !! key))).

Definition Add (key : K) (lifeSpan : Duration) (data : option V)
    : M State bool :=
  Lock;;
  t ← the_table;
  if bool_decide (is_Some (items t !! key)) then
    Unlock;; mret false
  else
    item ← NewCacheItem key lifeSpan data;
    addInternal item;;
    Unlock;;
    mret true.

(** [Get]: a hit is kept alive and returned; a miss goes to the loader,
    through the single-flight gate, when one is set. *)
Definition Get (key : K) : M State (option loc * option error) :=
  RLock;;
  t ← the_table;
  let r := items t !! key in
  let loadData := loadData t in
  RUnlock;;
  match r with
  | Some r =>
      KeepAlive r;;
      mret (Some r, None)
  | None =>
      match loadData with
      | Some loadData =>
          '(data, err) ← singleflight_Do key (
            '(temp, tempLifeSpan, err1) ← call_loader loadData key;
            t ← the_table;
            if bool_decide (is_Some err1) && negb (enableNullData t) then
              mret (None, err1)
            else
              item ← NewCacheItem key tempLifeSpan temp;
              Lock;;
              addInternal item;;
              Unlock;;
              mret (Some item, None));
          match err with
          | Some e => mret (None, Some e)
          | None => mret (data, None)
          end
      | None => mret (None, Some ErrKeyNotFound)
      end
  end.

Definition Flush : M State unit :=
  Lock;;
  t ← the_table;
  log (LogFlushing (name t));;
  update_table (set_items ∅);;
  update_table (set_cleanupInterval 0);;
  Unlock.

(** ** The expiration pass *)

(** The body of the loop of [ExpirationCheck] for one [key, item] of the
    range.  [refreshed] stands for the [continue] after a successful
    reload. *)
Definition sweep_entry (now : Time) (key : K) (item : loc) : M State unit :=
  it ← deref item;
  let lifeSpan := lifeSpan it in
  let accessedOn := accessedOn it in
  let createdOn := createdOn it in
  if bool_decide (lifeSpan = 0%Z) then mret tt
  else if bool_decide (lifeSpan ≤ Time_Sub now createdOn)%Z then
    t ← the_table;
    refreshed ←
      (if enableAutoLoad t then
         if bool_decide (Time_Sub now accessedOn ≤ two_thirds lifeSpan)%Z then
           match loadData t with
           | None => raise NilFunc
           | Some loadData =>
               '(temp, tempLifeSpan, err1) ← call_loader loadData key;
               match err1 with
               | None =>
                   fresh ← NewCacheItem key tempLifeSpan temp;
                   addInternal fresh;;
                   mret true
               | Some _ => mret false
               end
           end
         else mret false
       else mret false);
    if refreshed : bool then mret tt
    else deleteInternal key;; mret tt
  else mret tt.

(** [ExpirationCheck].  Go visits the entries of a map in an order of its
    own choosing: [order] is that order, a listing of the table's items. *)
Definition ExpirationCheck (order : list (K * loc)) : M State unit :=
  Lock;;
  t ← the_table;
  (if bool_decide (0 < cleanupInterval t)%Z
   then log (LogExpirationTriggered (cleanupInterval t) (name t))
   else log (LogExpirationInstalled (name t)));;
  now ← time_Now;
  forM_ order (λ '(key, item), sweep_entry now key item);;
  Unlock.

(** ** Ranking by access count *)

Record CacheItemPair := {
  Key : K;
  AccessCount : Z;
}.

(** [CacheItemPairList.Less]: a larger count sorts first. *)
Definition Less (a b : CacheItemPair) : bool :=
  bool_decide (AccessCount b < AccessCount a)%Z.

(** The first loop of [MostAccessed]: one pair per entry, in range order. *)
Fixpoint pairs_of (order : list (K * loc)) : M State (list CacheItemPair) :=
  match order with
  | [] => mret []
  | (k, v) :: rest =>
      it ← deref v;
      p ← pairs_of rest;
      mret (Build_CacheItemPair k (accessCount it) :: p)
  end.

(** The second loop: stop once [c >= count], resolve each key again. *)
Fixpoint first_items (t : CacheTable) (count c : Z) (p : list CacheItemPair)
    : list loc :=
  match p with
  | [] => []
  | v :: p' =>
      if bool_decide (count ≤ c)%Z then []
      else match items t !! Key v with
           | Some item => item :: first_items t count (c + 1) p'
           | None => first_items t count (c + 1) p'
           end
  end.

(** [MostAccessed].  [sort_Sort] is the standard library's [sort.Sort] on
    a [CacheItemPairList]; [order] is the range order of the map. *)
Definition MostAccessed
    (sort_Sort : list CacheItemPair → list CacheItemPair)
    (order : list (K * loc)) (count : Z) : M State (list loc) :=
  RLock;;
  t ← the_table;
  p ← pairs_of order;
  let p := sort_Sort p in
  let r := first_items t count 0 p in
  RUnlock;;
  mret r.

(** ** The registry of tables and the janitor *)

(** The package variables [cache] and [mutex], the tables allocated so
    far (a [*CacheTable] is an index), and the tables for which a janitor
    goroutine has been started. *)
Record Registry := {
  cache : gmap string nat;
  mutex : RWMutex;
  tables : list CacheTable;
  goroutines : list nat;
}.

Definition registry_mutex_op (op : RWMutex → fault + RWMutex)
    : M Registry unit := λ g,
  match op (mutex g) with
  | inr m => Ok tt (Build_Registry (cache g) m (tables g) (goroutines g))
  | inl f => Fault f
  end.

(** The composite literal [&CacheTable{name: .., cleanupInterval: ..,
    items: make(..)}]: every other field has its zero value. *)
Definition new_table (name : string) (cleanupInterval : Duration)
    : CacheTable :=
  Build_CacheTable Unlocked name ∅ cleanupInterval 0 None false false
    None None [] [].

(** [runJanitor(c, ci)]: installs the janitor and starts [j.Run(c)] on a
    goroutine of its own. *)
Definition runJanitor (c : nat) (ci : Duration) : M Registry unit := λ g,
  match tables g !! c with
  | None => Fault NilDeref
  | Some t =>
      let j := Build_janitor_t ci in
      Ok tt (Build_Registry (cache g) (mutex g)
               (<[c := set_janitor (Some j) t]> (tables g))
               (goroutines g ++ [c]))
  end.

(** [New] of cache.go: look the name up, and create the table on a miss
    (checked twice, the second time under the write lock). *)
Definition New (table : string) (cleanupInterval : Duration)
    : M Registry nat :=
  registry_mutex_op RWMutex_RLock;;
  g ← get;
  let t := cache g !! table in
  registry_mutex_op RWMutex_RUnlock;;
  match t with
  | Some t => mret t
  | None =>
      registry_mutex_op RWMutex_Lock;;
      g ← get;
      t ← match cache g !! table with
          | Some t => mret t
          | None =>
              let t := length (tables g) in
              modify (λ g, Build_Registry (<[table := t]> (cache g)) (mutex g)
                             (tables g ++ [new_table table cleanupInterval])
                             (goroutines g));;
              mret t
          end;
      registry_mutex_op RWMutex_Unlock;;
      mret t
  end.

(** [Cache] of cache.go: as [New], for a table without a cleanup interval
    (the field keeps its zero value). *)
Definition Cache (table : string) : M Registry nat :=
  registry_mutex_op RWMutex_RLock;;
  g ← get;
  let t := cache g !! table in
  registry_mutex_op RWMutex_RUnlock;;
  match t with
  | Some t => mret t
  | None =>
      registry_mutex_op RWMutex_Lock;;
      g ← get;
      t ← match cache g !! table with
          | Some t => mret t
          | None =>
              let t := length (tables g) in
              modify (λ g, Build_Registry (<[table := t]> (cache g)) (mutex g)
                             (tables g ++ [new_table table 0])
                             (goroutines g));;
              mret t
          end;
      registry_mutex_op RWMutex_Unlock;;
      mret t
  end.

(** ** Visiting every entry *)

(** [Foreach].  The visitor is a Go closure, called with the key and the
    address of the item: whatever it does is done to the state as the loop
    has it, with the read lock held.  [order] is the range order of the
    map. *)
Definition Foreach (order : list (K * loc)) (trans : K → loc → M State unit)
    : M State unit :=
  RLock;;
  forM_ order (λ '(k, v), trans k v);;
  RUnlock.

(** A visitor that only looks: it changes what it has captured, as [f] of
    the key, the address, the table and the items as it finds them. *)
Definition looking (f : K → loc → CacheTable → list CacheItem → W → W)
    : K → loc → M State unit :=
  λ k v, modify (λ s, set_env (f k v (table s) (heap s) (env s)) s).

(** ** The other methods of [CacheItemPairList] *)

Definition Len (p : list CacheItemPair) : nat := length p.

(** [p[i], p[j] = p[j], p[i]]; an index out of range panics, which is
    [None] here. *)
Definition Swap (p : list CacheItemPair) (i j : nat)
    : option (list CacheItemPair) :=
  match p !! j, p !! i with
  | Some pj, Some pi => Some (<[j := pi]> (<[i := pj]> p))
  | _, _ => None
  end.

(** ** The words of the specification *)

(** "Expired by creation time": [now - createdOn >= lifeSpan]. *)
Definition expired (now : Time) (it : CacheItem) : Prop :=
  (lifeSpan it ≤ Time_Sub now (createdOn it))%Z.

(** "Recently accessed": [now - accessedOn <= lifeSpan * 2/3]. *)
Definition recently_accessed (now : Time) (it : CacheItem) : Prop :=
  (Time_Sub now (accessedOn it) ≤ two_thirds (lifeSpan it))%Z.

(** The loader of the table, called for [k] in some environment, returned
    [r]. *)
Definition loader_returned (s : State) (k : K) (r : LoadResult) : Prop :=
  ∃ f w w', loadData (table s) = Some f ∧ f k w = (r, w').

(** The three things a sweep from [s] to [s'] can have done to the entry
    [it] stored at [p] under [k]. *)
Definition kept (s' : State) (k : K) (p : loc) (it : CacheItem) : Prop :=
  items (table s') !! k = Some p ∧ heap s' !! p = Some it.

Definition deleted (s' : State) (k : K) (p : loc) (it : CacheItem) : Prop :=
  items (table s') !! k = None ∧ heap s' !! p = Some it.

(** Replaced by a fresh item holding [v] and [span], for which the
    added-item callbacks ran, in order, with the table in state [tb]. *)
Definition refreshed (s s' : State) (k : K) (p : loc) (it : CacheItem)
    (v : option V) (span : Duration) : Prop :=
  ∃ p' pre post tb,
    items (table s') !! k = Some p'
    ∧ length (heap s) ≤ p'
    ∧ heap s' !! p' = Some (Build_CacheItem k v span (clock s) (clock s) 0 [])
    ∧ heap s' !! p = Some it
    ∧ lock tb = WLocked
    ∧ trace s' = trace s ++ pre
        ++ map (λ f, CallAdded f p' tb) (addedItem (table s)) ++ post.

(** What [ExpirationCheck] decides for one entry, as the code tests it. *)
Definition swept (now : Time) (s s' : State) (k : K) (p : loc)
    (it : CacheItem) : Prop :=
  ((lifeSpan it = 0%Z ∨ ¬ expired now it) ∧ kept s' k p it)
  ∨ (lifeSpan it ≠ 0%Z ∧ expired now it ∧ deleted s' k p it
     ∧ (enableAutoLoad (table s) = false
        ∨ ¬ recently_accessed now it
        ∨ ∃ v span e, loader_returned s k (v, span, Some e)))
  ∨ (lifeSpan it ≠ 0%Z ∧ expired now it
     ∧ enableAutoLoad (table s) = true ∧ recently_accessed now it
     ∧ ∃ v span, loader_returned s k (v, span, None)
                 ∧ refreshed s s' k p it v span).

(** A table on which the sweep can run: the items are allocated, and a
    table that reloads has a loader. *)
Definition sweepable (s : State) : Prop :=
  (∀ k p, items (table s) !! k = Some p → is_Some (heap s !! p))
  ∧ (enableAutoLoad (table s) = true → is_Some (loadData (table s))).

(** The contract of [sort.Sort] for this [Less]: the slice is rearranged
    so that no element is [Less] than its predecessor. *)
Definition sorts (sort_Sort : list CacheItemPair → list CacheItemPair)
    : Prop :=
  ∀ l, sort_Sort l ≡ₚ l ∧ Sorted (λ a b, Less b a = false) (sort_Sort l).

(** The access count read through an address. *)
Definition hits (s : State) (p : loc) : Z :=
  from_option accessCount 0%Z (heap s !! p).

(** The pair the first loop of [MostAccessed] builds for one entry. *)
Definition pair_at (s : State) (e : K * loc) : CacheItemPair :=
  Build_CacheItemPair e.1 (hits s e.2).

(** The access count of the entry stored under a key. *)
Definition key_hits (s : State) (k : K) : Z :=
  from_option (hits s) 0%Z (items (table s) !! k).

(** The pair of a key, with the count of the entry stored under it. *)
Definition pair_of_key (s : State) (k : K) : CacheItemPair :=
  Build_CacheItemPair k (key_hits s k).

(** Every item of the table is allocated. *)
Definition allocated (s : State) : Prop :=
  ∀ k p, items (table s) !! k = Some p → is_Some (heap s !! p).

(** A table at rest: nobody holds its mutex, and the sweep can run on it. *)
Definition at_rest (s : State) : Prop :=
  lock (table s) = Unlocked ∧ sweepable s.

(** What a callback finds when it is entered: an added-item callback finds
    the mutex write-locked and its item stored; the callbacks of a deletion
    find the mutex free and the entry still in the table. *)
Definition callback_view (e : Event) : Prop :=
  match e with
  | CallAdded _ item t =>
      lock t = WLocked ∧ ∃ k, items t !! k = Some item
  | CallAboutToDelete _ item t =>
      lock t = Unlocked ∧ ∃ k, items t !! k = Some item
  | CallAboutToExpire _ k t =>
      lock t = Unlocked ∧ is_Some (items t !! k)
  end.

(** The lines an operation has added to the log. *)
Definition lines_since (s s' : State) : list LogMsg :=
  drop (length (logged s)) (logged s').
(** ** The expiration rule in the words of the specification *)







End cacher.

(** * Tables of the package's tests *)

(** The tests use strings for keys and values.  Observers are known by
    name, and the loader of [TestDataLoader] counts its calls. *)
Abbreviation TestState := (@State string _ _ string nat string string).
Abbreviation TestTable := (@CacheTable string _ _ string nat string).
Abbreviation TestItem := (@CacheItem string string string).

Definition Millisecond : Duration := 1000000.
Definition Second : Duration := 1000000000.

(** The loader of [TestDataLoader]: the key ["nil"] cannot be loaded, any
    other key gets the number of the call, for 20ms. *)
Definition test_loader : @Loader string string nat := λ key count,
  if decide (key = "nil")
  then (None, 0%Z, Some (ErrUser "not found"), count)
  else (Some (pretty (S count)), (20 * Millisecond)%Z, None, S count).

(** A loader that reports a failure and hands back the last value it has. *)
Definition stale_loader : @Loader string string nat := λ key count,
  (Some "stale", Second, Some (ErrUser "backend down"), count).

(** A table as [New] makes it, given a loader and the null-data flag. *)
Definition loading_table (f : @Loader string string nat) (nulls : bool)
    : TestTable :=
  set_loadData (Some f)
    (set_enableAutoLoad true
       (set_enableNullData nulls (new_table "testDataLoader" Millisecond))).

(** A state with nothing cached yet. *)
Definition empty_state (t : TestTable) : TestState :=
  Build_State t [] 0 0 [] [].

(** [TestCallbackQueue]: two added-item observers, one about-to-delete
    observer, and one entry with an about-to-expire observer. *)
Definition callbacks_table : TestTable :=
  set_items {["testkey" := 0]}
    (set_aboutToDeleteItem ["deleting"]
       (set_addedItem ["added1"; "added2"] (new_table "testCallbacks" Second))).

Definition callbacks_state : TestState :=
  Build_State callbacks_table
    [Build_CacheItem "testkey" (Some "testvalue") (500 * Millisecond) 0 0 0
       ["expiring1"; "expiring2"]]
    0 0 [] [].

(** A table in the middle of its life, 22ms after its entries were made:
    one entry never expires, one is still young, one has expired unread,
    and one has expired but was read 12ms ago. *)
Definition forever_item : TestItem :=
  Build_CacheItem "forever" (Some "v") 0 0 0 0 [].
Definition young_item : TestItem :=
  Build_CacheItem "young" (Some "v") (30 * Millisecond) 0 0 0 [].
Definition cold_item : TestItem :=
  Build_CacheItem "cold" (Some "v") (10 * Millisecond) 0 0 0 ["expiring"].
Definition warm_item : TestItem :=
  Build_CacheItem "warm" (Some "v0") (20 * Millisecond) 0 (10 * Millisecond) 1 [].

Definition sweep_heap : list TestItem :=
  [forever_item; young_item; cold_item; warm_item].

Definition sweep_table : TestTable :=
  set_items (list_to_map [("forever", 0); ("young", 1); ("cold", 2); ("warm", 3)])
    (set_aboutToDeleteItem ["deleting"]
       (set_addedItem ["added"] (loading_table test_loader true))).

Definition sweep_state : TestState :=
  Build_State sweep_table sweep_heap 0 (22 * Millisecond) [] [].

(** [TestAccessCount]: keys 0 to 99, the entry of key [i] read [i] times. *)
Abbreviation RankState := (@State Z _ _ string nat string string).

Definition ranked_items : gmap Z loc :=
  list_to_map ((λ k, (k, Z.to_nat k)) <$> seqZ 0 100).

Definition ranked_heap : list (@CacheItem Z string string) :=
  (λ k, Build_CacheItem k (Some "testvalue") (10 * Second) 0 0 k [])
    <$> seqZ 0 100.

Definition ranked_state : RankState :=
  Build_State (set_items ranked_items (new_table "testAccessCount" Second))
    ranked_heap 0 0 [] [].

(** A sort that meets the contract of [sort.Sort]. *)
Definition by_count_desc {K} (l : list (@CacheItemPair K))
    : list (@CacheItemPair K) :=
  @merge_sort _ (λ a b, AccessCount b ≤ AccessCount a)%Z
    (λ a b, decide (AccessCount b ≤ AccessCount a)%Z) l.

(** The registry before any table is made. *)
Definition empty_registry : @Registry string _ _ string nat string :=
  Build_Registry ∅ Unlocked [] [].

(** A table whose owner has called [SetDataLoader(nil)], holding the entry
    ["warm"] of [sweep_state]. *)
Definition nil_loader_state : TestState :=
  Build_State
    (set_items {["warm" := 0]}
       (set_enableAutoLoad true (new_table "testNilLoader" Millisecond)))
    [warm_item] 0 (22 * Millisecond) [] [].

(** A table with a logger, as in [TestLogger], and an entry whose lifespan
    is negative. *)
Definition logged_state : TestState :=
  Build_State
    (set_items {["odd" := 0]}
       (set_logger (Some "cacher ") (new_table "testLogger" Second)))
    [Build_CacheItem "odd" (Some "v") (-1) 0 0 0 []]
    0 (5 * Millisecond) [] [].

(** The table of [TestCallbackQueue] while somebody holds its write lock,
    as an added-item callback finds it. *)
Definition busy_state : TestState :=
  set_table (set_lock WLocked callbacks_table) callbacks_state.

(** Three pairs to be sorted. *)
Definition three_pairs : list (@CacheItemPair string) :=
  [Build_CacheItemPair "a" 1; Build_CacheItemPair "b" 3;
   Build_CacheItemPair "c" 2].




(** A visitor that counts the entries it is shown while the read lock of
    the table is held. *)
Definition counting_visitor
    : string → loc → TestTable → list TestItem → nat → nat :=
  λ _ _ t _ n, match lock t with RLocked _ => S n | _ => n end.

(** * Properties *)

Section facts.
Context {K : Type} `{Countable K} {V W ItemCb KeyCb : Type}.

Local Abbreviation State := (@State K _ _ V W ItemCb KeyCb).
Local Abbreviation CacheTable := (@CacheTable K _ _ V W ItemCb).
Local Abbreviation CacheItem := (@CacheItem K V KeyCb).
Local Abbreviation Event := (@Event K _ _ V W ItemCb KeyCb).
Local Abbreviation LogMsg := (@LogMsg K).
Implicit Types (s : State) (t : CacheTable) (it : CacheItem) (m : LogMsg).

(** ** Writing a log line touches nothing but the log *)

Lemma table_written m s : table (written m s) = table s.
Proof. unfold written. by destruct (logger (table s)). Qed.
Lemma heap_written m s : heap (written m s) = heap s.
Proof. unfold written. by destruct (logger (table s)). Qed.
Lemma env_written m s : env (written m s) = env s.
Proof. unfold written. by destruct (logger (table s)). Qed.
Lemma clock_written m s : clock (written m s) = clock s.
Proof. unfold written. by destruct (logger (table s)). Qed.
Lemma trace_written m s : trace (written m s) = trace s.
Proof. unfold written. by destruct (logger (table s)). Qed.

(** ** Running a slice of callbacks *)

Lemma forM_call {A} (e : A → CacheTable → Event) (l : list A) s :
  forM_ l (λ f, call (e f)) s
  = Ok tt (set_trace (trace s ++ map (λ f, e f (table s)) l) s).
Proof.
  revert s. induction l as [|f l IH]; intros s.
  - destruct s; simpl. unfold_monad. by rewrite app_nil_r.
  - simpl. unfold call. unfold_monad. rewrite IH. simpl.
    by rewrite <- app_assoc.
Qed.

(** ** The two internal paths *)

Lemma addInternal_run (item : loc) it s :
  heap s !! item = Some it →
  ∃ s', addInternal item s = Ok tt s'
    ∧ table s' = set_items (<[key it := item]> (items (table s))) (table s)
    ∧ heap s' = heap s ∧ env s' = env s ∧ clock s' = clock s
    ∧ trace s' = trace s ++ map (λ f, CallAdded f item (table s'))
                              (addedItem (table s)).
Proof.
  intros Hit. unfold addInternal, deref, the_table, update_table, log.
  unfold_monad. rewrite Hit. simpl. rewrite forM_call. simpl.
  eexists. split; [reflexivity|]. simpl.
  rewrite table_written, heap_written, env_written, clock_written,
    trace_written.
  done.
Qed.

Lemma deleteInternal_absent (key : K) s :
  items (table s) !! key = None →
  deleteInternal key s = Ok (None, Some ErrKeyNotFound) s.
Proof.
  intros Hk. unfold deleteInternal, the_table. unfold_monad.
  by rewrite Hk.
Qed.

Lemma deleteInternal_run (key : K) (r : loc) it s :
  lock (table s) = WLocked →
  items (table s) !! key = Some r →
  heap s !! r = Some it →
  ∃ s', deleteInternal key s = Ok (Some r, None) s'
    ∧ table s' = set_items (delete key (items (table s))) (table s)
    ∧ heap s' = heap s ∧ env s' = env s ∧ clock s' = clock s
    ∧ trace s' = trace s
        ++ map (λ f, CallAboutToDelete f r (set_lock Unlocked (table s)))
             (aboutToDeleteItem (table s))
        ++ map (λ f, CallAboutToExpire f key (set_lock Unlocked (table s)))
             (aboutToExpire it).
Proof.
  intros Hl Hk Hit.
  unfold deleteInternal, deref, the_table, update_table, log, Lock, Unlock,
    mutex_op.
  unfold_monad. rewrite Hk, Hl. simpl.
  rewrite forM_call. simpl. rewrite Hit.
  rewrite forM_call. simpl. rewrite Hit. simpl.
  eexists. split; [reflexivity|]. simpl.
  rewrite table_written, heap_written, env_written, clock_written,
    trace_written. simpl.
  rewrite <- app_assoc.
  repeat split; try done.
  destruct (table s); simpl in *. by subst.
Qed.

(** ** [Set] and [Delete] from an unlocked table *)

Lemma Set_run (key : K) (ls : Duration) (d : option V) s :
  lock (table s) = Unlocked →
  ∃ s', Set_ key ls d s = Ok (length (heap s)) s'
    ∧ table s'
      = set_items (<[key := length (heap s)]> (items (table s))) (table s)
    ∧ heap s' = heap s ++ [Build_CacheItem key d ls (clock s) (clock s) 0 []]
    ∧ env s' = env s ∧ clock s' = clock s
    ∧ trace s' = trace s
        ++ map (λ f, CallAdded f (length (heap s))
                       (set_lock WLocked (table s')))
             (addedItem (table s)).
Proof.
  intros Hl. unfold Set_, NewCacheItem, time_Now, Lock, Unlock, mutex_op.
  unfold_monad. simpl. rewrite Hl. simpl.
  match goal with |- context [addInternal ?p ?s1] =>
    destruct (addInternal_run p
                (Build_CacheItem key d ls (clock s) (clock s) 0 []) s1)
      as (s2 & -> & Ht & Hh & He & Hc & Htr)
  end.
  { simpl. rewrite lookup_app_r by lia. by rewrite Nat.sub_diag. }
  simpl in *. rewrite Ht. simpl.
  eexists. split; [reflexivity|]. simpl.
  rewrite Hh, He, Hc, Htr, Ht. simpl.
  repeat split; try done.
  destruct (table s); simpl in *. by subst.
Qed.

Lemma Delete_absent (key : K) s :
  lock (table s) = Unlocked →
  items (table s) !! key = None →
  Delete key s = Ok (None, Some ErrKeyNotFound) s.
Proof.
  intros Hl Hk. unfold Delete, Lock, Unlock, mutex_op. unfold_monad.
  rewrite Hl. simpl. rewrite deleteInternal_absent by done. simpl.
  destruct s as [t ? ? ? ? ?]; destruct t; simpl in *. by subst.
Qed.

Lemma Delete_run (key : K) (r : loc) it s :
  lock (table s) = Unlocked →
  items (table s) !! key = Some r →
  heap s !! r = Some it →
  ∃ s', Delete key s = Ok (Some r, None) s'
    ∧ table s' = set_items (delete key (items (table s))) (table s)
    ∧ heap s' = heap s ∧ env s' = env s ∧ clock s' = clock s
    ∧ trace s' = trace s
        ++ map (λ f, CallAboutToDelete f r (table s))
             (aboutToDeleteItem (table s))
        ++ map (λ f, CallAboutToExpire f key (table s)) (aboutToExpire it).
Proof.
  intros Hl Hk Hit. unfold Delete, Lock, Unlock, mutex_op. unfold_monad.
  rewrite Hl. simpl.
  match goal with |- context [deleteInternal key ?s1] =>
    destruct (deleteInternal_run key r it s1)
      as (s2 & -> & Ht & Hh & He & Hc & Htr); try done
  end.
  simpl in *. rewrite Ht. simpl.
  eexists. split; [reflexivity|]. simpl.
  rewrite Hh, He, Hc, Htr.
  assert (set_lock Unlocked (set_lock WLocked (table s)) = table s) as ->.
  { destruct (table s); simpl in *. by subst. }
  repeat split; try done.
  destruct (table s); simpl in *. by subst.
Qed.

(** ** One entry of the sweep *)

Lemma set_items_same t : t = set_items (items t) t.
Proof. by destruct t. Qed.

Lemma sweep_delete (k : K) (p : loc) it s s0 :
  lock (table s) = WLocked →
  sweepable s →
  items (table s) !! k = Some p →
  heap s !! p = Some it →
  table s0 = table s → heap s0 = heap s → clock s0 = clock s →
  trace s0 = trace s →
  ∃ s', deleteInternal k s0 = Ok (Some p, None) s'
    ∧ table s' = set_items (items (table s')) (table s)
    ∧ clock s' = clock s
    ∧ (∃ ext, heap s' = heap s ++ ext)
    ∧ (∃ tr, trace s' = trace s ++ tr)
    ∧ (∀ k', k' ≠ k → items (table s') !! k' = items (table s) !! k')
    ∧ sweepable s'
    ∧ deleted s' k p it.
Proof.
  intros Hl [Hwf Hld] Hk Hit Et Eh Ec Etr.
  destruct (deleteInternal_run k p it s0)
    as (s' & Hrun & Ht & Hh & He & Hc & Htr'); try congruence.
  exists s'. split; [done|].
  rewrite Et in Ht. rewrite Ht, Hh, Hc, Htr', Eh, Ec, Etr. simpl.
  split; [done|]. split; [done|].
  split; [by exists []; rewrite app_nil_r|].
  split; [by eexists|].
  split; [by intros k' Hne; rewrite lookup_delete_ne|].
  split.
  - split; simpl.
    + intros k' q Hq. rewrite Ht in Hq. simpl in Hq. rewrite Hh, Eh.
      apply lookup_delete_Some in Hq as [_ Hq]. by eapply Hwf.
    + rewrite Ht. simpl. done.
  - unfold deleted. rewrite Ht, Hh, Eh. simpl.
    split; [apply lookup_delete_eq|done].
Qed.

Lemma sweep_entry_run (now : Time) (k : K) (p : loc) it s :
  lock (table s) = WLocked →
  sweepable s →
  items (table s) !! k = Some p →
  heap s !! p = Some it →
  ∃ s', sweep_entry now k p s = Ok tt s'
    ∧ table s' = set_items (items (table s')) (table s)
    ∧ clock s' = clock s
    ∧ (∃ ext, heap s' = heap s ++ ext)
    ∧ (∃ tr, trace s' = trace s ++ tr)
    ∧ (∀ k', k' ≠ k → items (table s') !! k' = items (table s) !! k')
    ∧ sweepable s'
    ∧ swept now s s' k p it.
Proof.
  intros Hl Hsw Hk Hit.
  set (Post := λ s' : State,
    table s' = set_items (items (table s')) (table s)
    ∧ clock s' = clock s
    ∧ (∃ ext, heap s' = heap s ++ ext)
    ∧ (∃ tr, trace s' = trace s ++ tr)
    ∧ (∀ k', k' ≠ k → items (table s') !! k' = items (table s) !! k')
    ∧ sweepable s'
    ∧ swept now s s' k p it).
  cut (∃ s', sweep_entry now k p s = Ok tt s' ∧ Post s'); [done|].
  assert (lifeSpan it = 0%Z ∨ ¬ expired now it → Post s) as Hkeep.
  { intros Hwhy. split; [apply set_items_same|].
    split; [done|]. split; [by exists []; rewrite app_nil_r|].
    split; [by exists []; rewrite app_nil_r|]. split; [done|].
    split; [done|]. left. by split. }
  assert (∀ s0, table s0 = table s → heap s0 = heap s → clock s0 = clock s →
    trace s0 = trace s →
    (enableAutoLoad (table s) = false ∨ ¬ recently_accessed now it
     ∨ ∃ v span e, loader_returned s k (v, span, Some e)) →
    lifeSpan it ≠ 0%Z → expired now it →
    ∃ s', deleteInternal k s0 = Ok (Some p, None) s' ∧ Post s') as Hdrop.
  { intros s0 Et Eh Ec Etr Hwhy Hz Hexp.
    destruct (sweep_delete k p it s s0)
      as (s' & -> & Ht & Hc & Hh & Htr & Hfr & Hsw' & Hdel); try done.
    exists s'. split; [done|]. repeat (split; [done|]). right; left. done. }
  unfold sweep_entry, deref. unfold_monad. rewrite Hit.
  case_bool_decide as Hz.
  { exists s. split; [done|]. apply Hkeep. by left. }
  case_bool_decide as Hexp; last first.
  { exists s. split; [done|]. apply Hkeep. by right. }
  unfold the_table. simpl.
  destruct (enableAutoLoad (table s)) eqn:Hauto; last first.
  { destruct (Hdrop s) as (s' & -> & HP); try done. { by left. }
    by exists s'. }
  case_bool_decide as Hrec; last first.
  { destruct (Hdrop s) as (s' & -> & HP); try done. { right; by left. }
    by exists s'. }
  destruct Hsw as [Hwf Hld]. destruct (Hld Hauto) as [f Hf]. rewrite Hf.
  unfold call_loader.
  destruct (f k (env s)) as [[[v span] err] w'] eqn:Hcall.
  destruct err as [e|].
  { destruct (Hdrop (set_env w' s)) as (s' & -> & HP); try done.
    { right; right. exists v, span, e, f. eauto. }
    by exists s'. }
  unfold NewCacheItem, time_Now. unfold_monad. simpl.
  match goal with |- context [addInternal ?q ?s1] =>
    destruct (addInternal_run q
                (Build_CacheItem k v span (clock s) (clock s) 0 []) s1)
      as (s2 & -> & Ht & Hh & He & Hc & Htr)
  end.
  { simpl. rewrite lookup_app_r by lia. by rewrite Nat.sub_diag. }
  simpl in *. exists s2. split; [done|].
  assert (heap s2 !! p = Some it) as Hp.
  { rewrite Hh. by apply lookup_app_l_Some. }
  assert (heap s2 !! length (heap s)
          = Some (Build_CacheItem k v span (clock s) (clock s) 0 [])) as Hnew.
  { rewrite Hh, lookup_app_r by lia. by rewrite Nat.sub_diag. }
  split; [by rewrite Ht|]. split; [done|].
  split; [by eexists|]. split; [by eexists|].
  split; [by intros k' Hne; rewrite Ht; simpl; rewrite lookup_insert_ne|].
  split.
  - split.
    + intros k' q. rewrite Ht. simpl. rewrite lookup_insert.
      case_decide as Hkk.
      * intros [= <-]. by eexists.
      * intros Hq. destruct (Hwf _ _ Hq) as [x Hx].
        exists x. rewrite Hh. by apply lookup_app_l_Some.
    + rewrite Ht. simpl. done.
  - right; right. repeat (split; [done|]).
    exists v, span. split; [by exists f, (env s), w'|].
    exists (length (heap s)), [], [], (table s2).
    split; [by rewrite Ht; simpl; rewrite lookup_insert_eq|].
    split; [done|]. split; [done|]. split; [done|].
    split; [by rewrite Ht|].
    by rewrite Htr, app_nil_r.
Qed.

(** ** The whole sweep *)

(** A verdict reached at [s1] still stands at a later [s'] that left the
    key alone. *)
Lemma swept_later (now : Time) s s1 s' (k : K) (p : loc) it :
  swept now s s1 k p it →
  items (table s') !! k = items (table s1) !! k →
  (∃ ext, heap s' = heap s1 ++ ext) →
  (∃ tr, trace s' = trace s1 ++ tr) →
  swept now s s' k p it.
Proof.
  intros Hs Hi [ext Hh] [tr Htr].
  assert (∀ q x, heap s1 !! q = Some x → heap s' !! q = Some x) as Hup.
  { intros q x Hq. rewrite Hh. by apply lookup_app_l_Some. }
  destruct Hs as [(Hwhy & Hi1 & Hp)|[(Hz & Hexp & (Hi1 & Hp) & Hwhy)
    |(Hz & Hexp & Hauto & Hrec & v & span & Hld & Hre)]].
  - left. split; [done|]. split; [congruence|auto].
  - right; left. repeat (split; [done|]). split; [|done].
    split; [congruence|auto].
  - right; right. repeat (split; [done|]). exists v, span. split; [done|].
    destruct Hre as (p' & pre & post & tb & Hi1 & Hlen & Hn & Hp & Hl & Ht).
    exists p', pre, (post ++ tr), tb.
    split; [congruence|]. split; [done|]. split; [auto|]. split; [auto|].
    split; [done|]. rewrite Htr, Ht. by rewrite <- !app_assoc.
Qed.

(** A verdict reached from [s1] is a verdict of the sweep that started at
    an earlier [s] of the same configuration. *)
Lemma swept_earlier (now : Time) s s1 s' (k : K) (p : loc) it :
  swept now s1 s' k p it →
  enableAutoLoad (table s1) = enableAutoLoad (table s) →
  loadData (table s1) = loadData (table s) →
  addedItem (table s1) = addedItem (table s) →
  clock s1 = clock s →
  (∃ ext, heap s1 = heap s ++ ext) →
  (∃ tr, trace s1 = trace s ++ tr) →
  swept now s s' k p it.
Proof.
  intros Hs Ea El Ead Hc [ext Hh] [tr Htr].
  assert (∀ r, loader_returned s1 k r → loader_returned s k r) as Hld.
  { intros r (f & w & w' & Hf & Hcall). exists f, w, w'.
    split; [congruence|done]. }
  destruct Hs as [(Hwhy & Hkept)|[(Hz & Hexp & Hdel & Hwhy)
    |(Hz & Hexp & Hauto & Hrec & v & span & Hret & Hre)]].
  - left. done.
  - right; left. repeat (split; [done|]).
    destruct Hwhy as [Hwhy|[Hwhy|(v & span & e & Hwhy)]].
    + left. congruence.
    + right; by left.
    + right; right. exists v, span, e. auto.
  - right; right. split; [done|]. split; [done|].
    split; [congruence|]. split; [done|].
    exists v, span. split; [auto|].
    destruct Hre as (p' & pre & post & tb & Hi1 & Hlen & Hn & Hp & Hl & Ht').
    exists p', (tr ++ pre), post, tb.
    split; [done|].
    split; [rewrite Hh, length_app in Hlen; lia|].
    split; [by rewrite <- Hc|]. split; [done|]. split; [done|].
    rewrite Ht', Htr, Ead. by rewrite <- !app_assoc.
Qed.

Lemma sweep_loop (now : Time) (order : list (K * loc)) s :
  lock (table s) = WLocked →
  sweepable s →
  NoDup order.*1 →
  (∀ k p, (k, p) ∈ order → items (table s) !! k = Some p) →
  ∃ s', forM_ order (λ '(key, item), sweep_entry now key item) s = Ok tt s'
    ∧ table s' = set_items (items (table s')) (table s)
    ∧ clock s' = clock s
    ∧ (∃ ext, heap s' = heap s ++ ext)
    ∧ (∃ tr, trace s' = trace s ++ tr)
    ∧ (∀ k', k' ∉ order.*1 → items (table s') !! k' = items (table s) !! k')
    ∧ sweepable s'
    ∧ (∀ k p it, (k, p) ∈ order → heap s !! p = Some it →
         swept now s s' k p it).
Proof.
  revert s. induction order as [|[k p] order IH]; intros s Hl Hsw Hnd Hin.
  - exists s. simpl. split; [done|]. split; [apply set_items_same|].
    split; [done|]. split; [by exists []; rewrite app_nil_r|].
    split; [by exists []; rewrite app_nil_r|]. split; [done|].
    split; [done|]. intros k p it Hk. by apply elem_of_nil in Hk.
  - simpl in Hnd. apply NoDup_cons in Hnd as [Hk Hnd].
    assert (items (table s) !! k = Some p) as Hkp
      by (apply Hin; left).
    destruct (proj1 Hsw _ _ Hkp) as [it Hit].
    destruct (sweep_entry_run now k p it s)
      as (s1 & Hrun & Ht1 & Hc1 & Hh1 & Htr1 & Hfr1 & Hsw1 & Hs1);
      try done.
    destruct (IH s1) as (s' & Hrun' & Ht & Hc & Hh & Htr & Hfr & Hsw' & Hs);
      try done.
    { rewrite Ht1. simpl. done. }
    { intros k' p' Hk'. rewrite Hfr1.
      - apply Hin. by right.
      - intros ->. apply Hk. apply list_elem_of_fmap.
        by exists (k, p'). }
    exists s'. split.
    { simpl. unfold_monad. rewrite Hrun. done. }
    split. { rewrite Ht, Ht1 at 1. done. }
    split; [congruence|].
    split. { destruct Hh1 as [e1 E1], Hh as [e2 E2].
             exists (e1 ++ e2). by rewrite E2, E1, app_assoc. }
    split. { destruct Htr1 as [e1 E1], Htr as [e2 E2].
             exists (e1 ++ e2). by rewrite E2, E1, app_assoc. }
    split.
    { intros k' Hk'. simpl in Hk'. apply not_elem_of_cons in Hk' as [Hne Hk'].
      rewrite Hfr by done. by apply Hfr1. }
    split; [done|].
    intros k' p' it' Hk' Hit'.
    apply elem_of_cons in Hk' as [[= -> ->]|Hk'].
    + replace it' with it by congruence.
      eapply swept_later; [done| |done|done]. by apply Hfr.
    + eapply swept_earlier;
        [|by rewrite Ht1|by rewrite Ht1|by rewrite Ht1|done|done|done].
      apply Hs; [done|].
      destruct Hh1 as [e1 E1]. rewrite E1. by apply lookup_app_l_Some.
Qed.

Lemma ExpirationCheck_run (order : list (K * loc)) s :
  lock (table s) = Unlocked →
  sweepable s →
  order ≡ₚ map_to_list (items (table s)) →
  ∃ s', ExpirationCheck order s = Ok tt s'
    ∧ table s' = set_items (items (table s')) (table s)
    ∧ clock s' = clock s
    ∧ (∃ ext, heap s' = heap s ++ ext)
    ∧ (∃ tr, trace s' = trace s ++ tr)
    ∧ (∀ k, items (table s) !! k = None → items (table s') !! k = None)
    ∧ (∀ k p it, items (table s) !! k = Some p → heap s !! p = Some it →
         swept (clock s) s s' k p it).
Proof.
  intros Hl Hsw Hperm.
  unfold ExpirationCheck, Lock, Unlock, mutex_op, the_table, time_Now, log.
  unfold_monad. rewrite Hl. simpl.
  cut (∀ m, ∃ s',
    match
      forM_ order (λ '(key0, item),
        sweep_entry (clock (written m (set_table (set_lock WLocked (table s)) s)))
          key0 item)
        (written m (set_table (set_lock WLocked (table s)) s))
    with
    | Ok _ s'1 =>
        match RWMutex_Unlock (lock (table s'1)) with
        | inl f => Fault f
        | inr m => Ok () (set_table (set_lock m (table s'1)) s'1)
        end
    | Fault f => Fault f
    end = Ok () s'
    ∧ table s' = set_items (items (table s')) (table s)
    ∧ clock s' = clock s
    ∧ (∃ ext, heap s' = heap s ++ ext)
    ∧ (∃ tr, trace s' = trace s ++ tr)
    ∧ (∀ k, items (table s) !! k = None → items (table s') !! k = None)
    ∧ (∀ k p it, items (table s) !! k = Some p → heap s !! p = Some it →
         swept (clock s) s s' k p it)).
  { intros Hgen. destruct (bool_decide _); apply Hgen. }
  intros m. set (s1 := written m _).
  assert (table s1 = set_lock WLocked (table s)) as Et1
    by (unfold s1; by rewrite table_written).
  assert (heap s1 = heap s) as Eh1 by (unfold s1; by rewrite heap_written).
  assert (trace s1 = trace s) as Etr1 by (unfold s1; by rewrite trace_written).
  assert (clock s1 = clock s) as Ec1 by (unfold s1; by rewrite clock_written).
  clearbody s1.
  rewrite Ec1.
  destruct (sweep_loop (clock s) order s1)
    as (s' & -> & Ht & Hc & Hh & Htr & Hfr & Hsw' & Hs).
  { by rewrite Et1. }
  { destruct Hsw as [Hwf Hld]. split.
    - intros k p. rewrite Et1, Eh1. simpl. apply Hwf.
    - rewrite Et1. simpl. done. }
  { rewrite Hperm. apply NoDup_fst_map_to_list. }
  { intros k p Hk. rewrite Hperm in Hk. apply elem_of_map_to_list in Hk.
    by rewrite Et1. }
  assert (lock (table s') = WLocked) as Hl' by (by rewrite Ht, Et1).
  rewrite Hl'. simpl. eexists. split; [reflexivity|]. simpl.
  split. { rewrite Ht, Et1. destruct (table s); simpl in *. by subst. }
  split; [congruence|].
  split; [by rewrite <- Eh1|].
  split; [by rewrite <- Etr1|].
  split.
  { intros k Hk. rewrite Hfr.
    - by rewrite Et1.
    - rewrite Hperm. intros Hin. apply list_elem_of_fmap in Hin
        as ([k' p] & -> & Hin). apply elem_of_map_to_list in Hin.
      simpl in Hk. congruence. }
  intros k p it Hk Hit.
  eapply swept_earlier with (s1 := s1);
    [|by rewrite Et1|by rewrite Et1|by rewrite Et1|done
     |by exists []; rewrite app_nil_r|by exists []; rewrite app_nil_r].
  eapply swept_later with (s1 := s'); [|done|by exists []; rewrite app_nil_r
    |by exists []; rewrite app_nil_r].
  apply Hs; [|by rewrite Eh1].
  rewrite Hperm. by apply elem_of_map_to_list.
Qed.

(** What [ExpirationCheck] does before and after its loop. *)
Lemma ExpirationCheck_unfold (order : list (K * loc)) s :
  lock (table s) = Unlocked →
  ∃ s1, table s1 = set_lock WLocked (table s)
    ∧ heap s1 = heap s ∧ env s1 = env s ∧ clock s1 = clock s
    ∧ trace s1 = trace s
    ∧ ExpirationCheck order s
      = match forM_ order (λ '(key, item), sweep_entry (clock s) key item) s1
        with
        | Ok _ s2 => Unlock s2
        | Fault f => Fault f
        end.
Proof.
  intros Hl. unfold ExpirationCheck, Lock, mutex_op, the_table, time_Now, log.
  unfold_monad. rewrite Hl. simpl.
  destruct (bool_decide _); simpl.
  all: eexists (written _ (set_table (set_lock WLocked (table s)) s)).
  all: rewrite table_written, heap_written, env_written, clock_written,
         trace_written; simpl.
  all: repeat (split; [reflexivity|]).
  all: by rewrite clock_written.
Qed.

(** ** The sweep and the rule of the specification *)













(** ** [Get] on a miss, and [Exists] *)

Lemma unlock_rlock t :
  lock t = Unlocked → set_lock Unlocked (set_lock (RLocked 0) t) = t.
Proof. destruct t; simpl. by intros ->. Qed.

Lemma Exists_run (key : K) s :
  lock (table s) = Unlocked →
  Exists key s = Ok (bool_decide (is_Some (items (table s) !! key))) s.
Proof.
  intros Hl. unfold Exists, RLock, RUnlock, mutex_op, the_table.
  unfold_monad. rewrite Hl. simpl. rewrite unlock_rlock by done.
  by destruct s.
Qed.

Lemma Get_load_error (key : K) (f : Loader) v span e w' s :
  lock (table s) = Unlocked →
  items (table s) !! key = None →
  loadData (table s) = Some f →
  f key (env s) = (v, span, Some e, w') →
  enableNullData (table s) = false →
  ∃ s', Get key s = Ok (None, Some e) s'
    ∧ table s' = table s ∧ heap s' = heap s ∧ trace s' = trace s
    ∧ clock s' = clock s ∧ env s' = w'.
Proof.
  intros Hl Hk Hf Hcall Hnull.
  unfold Get, RLock, RUnlock, mutex_op, the_table, singleflight_Do,
    call_loader.
  unfold_monad. rewrite Hl. simpl. rewrite Hk, Hf. simpl.
  rewrite Hcall. simpl. rewrite Hnull. simpl.
  eexists. split; [reflexivity|]. simpl.
  by rewrite unlock_rlock.
Qed.

Lemma Get_load_admit (key : K) (f : Loader) v span err w' s :
  lock (table s) = Unlocked →
  items (table s) !! key = None →
  loadData (table s) = Some f →
  f key (env s) = (v, span, err, w') →
  err = None ∨ enableNullData (table s) = true →
  ∃ s', Get key s = Ok (Some (length (heap s)), None) s'
    ∧ table s'
      = set_items (<[key := length (heap s)]> (items (table s))) (table s)
    ∧ heap s' = heap s ++ [Build_CacheItem key v span (clock s) (clock s) 0 []]
    ∧ clock s' = clock s ∧ env s' = w'
    ∧ trace s' = trace s
        ++ map (λ f, CallAdded f (length (heap s))
                       (set_lock WLocked (table s')))
             (addedItem (table s)).
Proof.
  intros Hl Hk Hf Hcall Hadmit.
  unfold Get, RLock, RUnlock, mutex_op, the_table, singleflight_Do,
    call_loader.
  unfold_monad. rewrite Hl. simpl. rewrite Hk, Hf. simpl.
  rewrite Hcall. simpl.
  assert (bool_decide (is_Some err) && negb (enableNullData (table s))
          = false) as ->.
  { destruct Hadmit as [->| ->].
    - rewrite bool_decide_eq_false_2; [done|]. by intros [? ?].
    - by rewrite andb_false_r. }
  rewrite unlock_rlock by done.
  unfold NewCacheItem, time_Now, Lock, Unlock, mutex_op.
  unfold_monad. simpl. rewrite Hl. simpl.
  match goal with |- context [addInternal ?q ?s1] =>
    destruct (addInternal_run q
                (Build_CacheItem key v span (clock s) (clock s) 0 []) s1)
      as (s2 & -> & Ht & Hh & He & Hc & Htr)
  end.
  { simpl. rewrite lookup_app_r by lia. by rewrite Nat.sub_diag. }
  simpl in *. rewrite Ht. simpl.
  eexists. split; [reflexivity|]. simpl.
  rewrite Hh, He, Hc, Htr, Ht. simpl.
  repeat split; try done.
  destruct (table s); simpl in *. by subst.
Qed.

(** ** The callback registries *)

Lemma relock t : lock t = Unlocked → set_lock Unlocked (set_lock WLocked t) = t.
Proof. destruct t; simpl. by intros ->. Qed.

Lemma AddAddedItemCallback_run (f : ItemCb) s :
  lock (table s) = Unlocked →
  ∃ s', AddAddedItemCallback f s = Ok tt s'
    ∧ table s' = set_addedItem (addedItem (table s) ++ [f]) (table s)
    ∧ heap s' = heap s ∧ trace s' = trace s.
Proof.
  intros Hl. unfold AddAddedItemCallback, Lock, Unlock, mutex_op, update_table.
  unfold_monad. rewrite Hl. simpl. eexists. split; [reflexivity|]. simpl.
  repeat split. destruct (table s); simpl in *. by subst.
Qed.

Lemma SetAddedItemCallback_run (f : ItemCb) s :
  lock (table s) = Unlocked →
  ∃ s', SetAddedItemCallback f s = Ok tt s'
    ∧ table s' = set_addedItem [f] (table s)
    ∧ heap s' = heap s ∧ trace s' = trace s.
Proof.
  intros Hl.
  unfold SetAddedItemCallback, RemoveAddedItemCallbacks, Lock, Unlock,
    mutex_op, update_table, the_table.
  unfold_monad. case_bool_decide as Hlen; simpl; rewrite Hl; simpl.
  - eexists. split; [reflexivity|]. simpl.
    repeat split. destruct (table s); simpl in *. by subst.
  - eexists. split; [reflexivity|]. simpl.
    repeat split. destruct (table s) as [? ? ? ? ? ? ? ? ? ? l ?]; simpl in *.
    subst. destruct l; simpl in *; [done|lia].
Qed.

Lemma AddAboutToDeleteItemCallback_run (f : ItemCb) s :
  lock (table s) = Unlocked →
  ∃ s', AddAboutToDeleteItemCallback f s = Ok tt s'
    ∧ table s'
      = set_aboutToDeleteItem (aboutToDeleteItem (table s) ++ [f]) (table s)
    ∧ heap s' = heap s ∧ trace s' = trace s.
Proof.
  intros Hl.
  unfold AddAboutToDeleteItemCallback, Lock, Unlock, mutex_op, update_table.
  unfold_monad. rewrite Hl. simpl. eexists. split; [reflexivity|]. simpl.
  repeat split. destruct (table s); simpl in *. by subst.
Qed.

Lemma SetAboutToDeleteItemCallback_run (f : ItemCb) s :
  lock (table s) = Unlocked →
  ∃ s', SetAboutToDeleteItemCallback f s = Ok tt s'
    ∧ table s' = set_aboutToDeleteItem [f] (table s)
    ∧ heap s' = heap s ∧ trace s' = trace s.
Proof.
  intros Hl.
  unfold SetAboutToDeleteItemCallback, RemoveAboutToDeleteItemCallback, Lock,
    Unlock, mutex_op, update_table, the_table.
  unfold_monad. case_bool_decide as Hlen; simpl; rewrite Hl; simpl.
  - eexists. split; [reflexivity|]. simpl.
    repeat split. destruct (table s); simpl in *. by subst.
  - eexists. split; [reflexivity|]. simpl.
    repeat split. destruct (table s) as [? ? ? ? ? ? ? ? ? ? ? l]; simpl in *.
    subst. destruct l; simpl in *; [done|lia].
Qed.

Lemma AddAboutToExpireCallback_run (r : loc) (f : KeyCb) it s :
  heap s !! r = Some it →
  AddAboutToExpireCallback r f s
  = Ok tt (set_heap
             (<[r := set_aboutToExpire (aboutToExpire it ++ [f]) it]> (heap s))
             s).
Proof.
  intros Hit. unfold AddAboutToExpireCallback, deref. unfold_monad.
  by rewrite Hit.
Qed.

Lemma SetAboutToExpireCallback_run (r : loc) (f : KeyCb) it s :
  heap s !! r = Some it →
  SetAboutToExpireCallback r f s
  = Ok tt (set_heap (<[r := set_aboutToExpire [f] it]> (heap s)) s).
Proof.
  intros Hit.
  assert (r < length (heap s)) as Hr by (by eapply lookup_lt_Some).
  unfold SetAboutToExpireCallback, RemoveAboutToExpireCallback,
    AddAboutToExpireCallback, deref.
  unfold_monad. rewrite Hit. case_bool_decide as Hlen; simpl.
  - rewrite Hit. simpl. rewrite list_lookup_insert_eq by done. simpl.
    by rewrite list_insert_insert_eq.
  - rewrite Hit. destruct it as [? ? ? ? ? ? l]; simpl in *.
    destruct l; simpl in *; [done|lia].
Qed.

(** ** [MostAccessed] *)

Local Abbreviation CacheItemPair := (@CacheItemPair K).

Lemma pairs_of_run (order : list (K * loc)) s :
  (∀ k p, (k, p) ∈ order → is_Some (heap s !! p)) →
  pairs_of order s = Ok (pair_at s <$> order) s.
Proof.
  induction order as [|[k p] order IH]; intros Hok; [done|].
  simpl. unfold deref. unfold_monad.
  destruct (Hok k p) as [it Hit]; [left|].
  rewrite Hit, IH.
  - unfold pair_at, hits. simpl. by rewrite Hit.
  - intros k' p' Hin. apply (Hok k'). by right.
Qed.

Lemma first_items_set_lock l t (count c : Z) (p : list CacheItemPair) :
  first_items (set_lock l t) count c p = first_items t count c p.
Proof.
  revert c. induction p as [|v p IH]; intros c; simpl; [done|].
  by rewrite !IH.
Qed.

Lemma MostAccessed_run sort_Sort (order : list (K * loc)) (count : Z) s :
  lock (table s) = Unlocked →
  (∀ k p, (k, p) ∈ order → is_Some (heap s !! p)) →
  MostAccessed sort_Sort order count s
  = Ok (first_items (table s) count 0 (sort_Sort (pair_at s <$> order))) s.
Proof.
  intros Hl Hok. unfold MostAccessed, RLock, RUnlock, mutex_op, the_table.
  unfold_monad. rewrite Hl. simpl.
  rewrite pairs_of_run.
  - simpl. rewrite unlock_rlock, first_items_set_lock by done.
    by destruct s.
  - done.
Qed.


Lemma first_items_resolved t (count c : Z) (p : list CacheItemPair) :
  (∀ v, v ∈ p → is_Some (items t !! Key v)) →
  Some <$> first_items t count c p
  = (λ v, items t !! Key v) <$> take (Z.to_nat (count - c)) p.
Proof.
  revert c. induction p as [|v p IH]; intros c Hres; simpl.
  { by rewrite take_nil. }
  case_bool_decide.
  { replace (Z.to_nat (count - c)) with 0 by lia. done. }
  replace (Z.to_nat (count - c)) with (S (Z.to_nat (count - (c + 1))))
    by lia.
  destruct (Hres v) as [q Hq]; [left|].
  rewrite Hq. simpl. rewrite Hq, IH; [done|].
  intros v' Hv'. apply Hres. by right.
Qed.

Lemma pair_at_of_key (order : list (K * loc)) s :
  order ≡ₚ map_to_list (items (table s)) →
  pair_at s <$> order = pair_of_key s <$> order.*1.
Proof.
  intros Hperm. rewrite <- list_fmap_compose.
  apply Forall_fmap_ext_1, Forall_forall. intros [k p] Hin.
  rewrite Hperm in Hin. apply elem_of_map_to_list in Hin.
  unfold pair_at, pair_of_key, key_hits. simpl. by rewrite Hin.
Qed.

Lemma sorts_strongly sort_Sort (l : list CacheItemPair) :
  sorts sort_Sort →
  StronglySorted (λ a b, AccessCount b ≤ AccessCount a)%Z (sort_Sort l).
Proof.
  intros Hsort. destruct (Hsort l) as [_ Hs].
  apply Sorted_StronglySorted.
  { intros x y z ??. lia. }
  rewrite <- (list_fmap_id (sort_Sort l)).
  eapply Sorted_fmap; [|exact Hs].
  intros x y Hxy. unfold Less in Hxy. simpl.
  apply bool_decide_eq_false in Hxy. lia.
Qed.


(** The sorted pairs, seen from the keys of the table. *)
Lemma sorted_pairs sort_Sort (order : list (K * loc)) s :
  sorts sort_Sort →
  order ≡ₚ map_to_list (items (table s)) →
  let l := sort_Sort (pair_at s <$> order) in
  StronglySorted (λ a b, AccessCount b ≤ AccessCount a)%Z l
  ∧ l ≡ₚ pair_of_key s <$> (map_to_list (items (table s))).*1
  ∧ ∀ v, v ∈ l → ∃ p, items (table s) !! Key v = Some p
                      ∧ hits s p = AccessCount v.
Proof.
  intros Hsort Hperm l.
  assert (l ≡ₚ pair_of_key s <$> (map_to_list (items (table s))).*1) as Hl.
  { unfold l. rewrite (proj1 (Hsort _)), pair_at_of_key by done.
    by rewrite Hperm. }
  split; [by apply sorts_strongly|]. split; [done|].
  intros v Hv. rewrite Hl in Hv.
  apply list_elem_of_fmap in Hv as (k & -> & Hk).
  apply list_elem_of_fmap in Hk as ([k' p] & -> & Hk).
  apply elem_of_map_to_list in Hk. exists p. simpl.
  split; [done|]. unfold key_hits. by rewrite Hk.
Qed.




End facts.

(** ** The ranking of a table keyed by integers *)

Section integer_keys.
Context {V W ItemCb KeyCb : Type}.

Local Abbreviation State := (@State Z _ _ V W ItemCb KeyCb).
Implicit Types (s : State).



End integer_keys.

(** * The claims about the table *)

Section claims.
Context {K : Type} `{Countable K} {V W ItemCb KeyCb : Type}.

Local Abbreviation State := (@State K _ _ V W ItemCb KeyCb).
Local Abbreviation CacheItem := (@CacheItem K V KeyCb).
Local Abbreviation Registry := (@Registry K _ _ V W ItemCb).
Local Abbreviation Loader := (@Loader K V W).
Implicit Types (s : State) (it : CacheItem) (g : Registry).

(** C1, as the code has it: [Set] enters every added-item callback while
    the write lock of the table is held.  [Set] locks, calls [addInternal],
    and unlocks only after it returns; [addInternal] runs the callbacks and
    never unlocks, so each invocation finds the table in state [tb], whose
    mutex is write-locked. *)
Theorem Set_callbacks_under_write_lock
    (key : K) (ls : Duration) (d : option V) s :
  lock (table s) = Unlocked →
  ∃ s' tb, Set_ key ls d s = Ok (length (heap s)) s'
    ∧ lock tb = WLocked
    ∧ trace s' = trace s
        ++ map (λ f, CallAdded f (length (heap s)) tb) (addedItem (table s))
    ∧ lock (table s') = Unlocked.
Proof.
  intros Hl.
  destruct (Set_run key ls d s Hl) as (s' & Hrun & Ht & _ & _ & _ & Htr).
  exists s', (set_lock WLocked (table s')).
  split; [done|]. split; [done|]. split; [done|].
  by rewrite Ht.
Qed.

(** C9: [Set] on a key that is already present replaces the entry without
    telling the deletion observers.  The only callbacks entered are the
    added-item callbacks, on the new item; the new item is stored under the
    key, every other key keeps its entry, and every item allocated before,
    the replaced one included, is unchanged. *)
Theorem Set_replaces_silently
    (key : K) (ls : Duration) (d : option V) (r : loc) s :
  lock (table s) = Unlocked →
  items (table s) !! key = Some r →
  ∃ s' tb, Set_ key ls d s = Ok (length (heap s)) s'
    ∧ trace s' = trace s
        ++ map (λ f, CallAdded f (length (heap s)) tb) (addedItem (table s))
    ∧ (∀ e, e ∈ drop (length (trace s)) (trace s') →
         ∃ f, e = CallAdded f (length (heap s)) tb)
    ∧ items (table s') !! key = Some (length (heap s))
    ∧ (∀ k', k' ≠ key → items (table s') !! k' = items (table s) !! k')
    ∧ (∀ q it, heap s !! q = Some it → heap s' !! q = Some it).
Proof.
  intros Hl Hk.
  destruct (Set_run key ls d s Hl) as (s' & Hrun & Ht & Hh & _ & _ & Htr).
  exists s', (set_lock WLocked (table s')).
  split; [done|]. split; [done|]. split.
  { intros e. rewrite Htr, drop_app_length. intros He.
    apply list_elem_of_fmap in He as (f & -> & _). by exists f. }
  rewrite Ht. simpl. split; [by rewrite lookup_insert_eq|].
  split; [by intros k' Hne; rewrite lookup_insert_ne|].
  intros q it Hq. rewrite Hh. by apply lookup_app_l_Some.
Qed.

(** C5: [Delete] of an absent key fails with [ErrKeyNotFound] and changes
    nothing.  [Delete] of a present key enters the about-to-delete callbacks
    with the entry, in the order of the registry, then the about-to-expire
    callbacks of the entry with the key, in their order; each of them finds
    the table [table s], in which the key is still present; the key is gone
    from the items afterwards. *)
Theorem Delete_spec (key : K) s :
  lock (table s) = Unlocked →
  allocated s →
  match items (table s) !! key with
  | None => Delete key s = Ok (None, Some ErrKeyNotFound) s
  | Some r =>
      ∃ it s', heap s !! r = Some it
        ∧ Delete key s = Ok (Some r, None) s'
        ∧ trace s' = trace s
            ++ map (λ f, CallAboutToDelete f r (table s))
                 (aboutToDeleteItem (table s))
            ++ map (λ f, CallAboutToExpire f key (table s))
                 (aboutToExpire it)
        ∧ items (table s') = delete key (items (table s))
  end.
Proof.
  intros Hl Hwf. destruct (items (table s) !! key) as [r|] eqn:Hk.
  - destruct (Hwf _ _ Hk) as [it Hit].
    destruct (Delete_run key r it s Hl Hk Hit)
      as (s' & Hrun & Ht & _ & _ & _ & Htr).
    exists it, s'. repeat (split; [done|]). by rewrite Ht.
  - by apply Delete_absent.
Qed.

(** C10: [Delete] of a present key returns the address that the table held
    under the key, with a nil error; the key is no longer in the table, and
    the item at that address is still there to be read, unchanged. *)
Theorem Delete_returns_entry (key : K) (r : loc) it s :
  lock (table s) = Unlocked →
  items (table s) !! key = Some r →
  heap s !! r = Some it →
  ∃ s', Delete key s = Ok (Some r, None) s'
    ∧ items (table s') !! key = None
    ∧ heap s' !! r = Some it.
Proof.
  intros Hl Hk Hit.
  destruct (Delete_run key r it s Hl Hk Hit)
    as (s' & Hrun & Ht & Hh & _ & _ & _).
  exists s'. split; [done|]. rewrite Ht, Hh. simpl.
  split; [apply lookup_delete_eq|done].
Qed.

(** C6: in each of the three registries, [Set...Callback f] leaves [f] as
    the only callback whatever was registered before, and
    [Add...Callback f] puts [f] after the callbacks already there.  The
    fan-out follows the registry from first to last: [Set] enters the
    added-item callbacks in that order, [Delete] the about-to-delete
    callbacks and then the about-to-expire callbacks of the entry. *)
Theorem callback_registries
    (f : ItemCb) (h : KeyCb) (key : K) (ls : Duration) (d : option V)
    (r : loc) it s :
  lock (table s) = Unlocked →
  items (table s) !! key = Some r →
  heap s !! r = Some it →
  (∃ s', SetAddedItemCallback f s = Ok tt s'
         ∧ addedItem (table s') = [f])
  ∧ (∃ s', SetAboutToDeleteItemCallback f s = Ok tt s'
           ∧ aboutToDeleteItem (table s') = [f])
  ∧ (∃ s', SetAboutToExpireCallback r h s = Ok tt s'
           ∧ aboutToExpire <$> heap s' !! r = Some [h])
  ∧ (∃ s', AddAddedItemCallback f s = Ok tt s'
           ∧ addedItem (table s') = addedItem (table s) ++ [f])
  ∧ (∃ s', AddAboutToDeleteItemCallback f s = Ok tt s'
           ∧ aboutToDeleteItem (table s') = aboutToDeleteItem (table s) ++ [f])
  ∧ (∃ s', AddAboutToExpireCallback r h s = Ok tt s'
           ∧ aboutToExpire <$> heap s' !! r = Some (aboutToExpire it ++ [h]))
  ∧ (∃ s' tb, Set_ key ls d s = Ok (length (heap s)) s'
       ∧ trace s' = trace s
           ++ map (λ f, CallAdded f (length (heap s)) tb)
                (addedItem (table s)))
  ∧ (∃ s', Delete key s = Ok (Some r, None) s'
       ∧ trace s' = trace s
           ++ map (λ f, CallAboutToDelete f r (table s))
                (aboutToDeleteItem (table s))
           ++ map (λ f, CallAboutToExpire f key (table s))
                (aboutToExpire it)).
Proof.
  intros Hl Hk Hit.
  assert (r < length (heap s)) as Hr by (by eapply lookup_lt_Some).
  split.
  { destruct (SetAddedItemCallback_run f s Hl) as (s' & -> & Ht & _).
    exists s'. by rewrite Ht. }
  split.
  { destruct (SetAboutToDeleteItemCallback_run f s Hl) as (s' & -> & Ht & _).
    exists s'. by rewrite Ht. }
  split.
  { rewrite (SetAboutToExpireCallback_run r h it s Hit).
    eexists. split; [done|]. simpl.
    by rewrite list_lookup_insert_eq. }
  split.
  { destruct (AddAddedItemCallback_run f s Hl) as (s' & -> & Ht & _).
    exists s'. by rewrite Ht. }
  split.
  { destruct (AddAboutToDeleteItemCallback_run f s Hl) as (s' & -> & Ht & _).
    exists s'. by rewrite Ht. }
  split.
  { rewrite (AddAboutToExpireCallback_run r h it s Hit).
    eexists. split; [done|]. simpl.
    by rewrite list_lookup_insert_eq. }
  split.
  { destruct (Set_run key ls d s Hl) as (s' & Hrun & _ & _ & _ & _ & Htr).
    by exists s', (set_lock WLocked (table s')). }
  destruct (Delete_run key r it s Hl Hk Hit)
    as (s' & Hrun & _ & _ & _ & _ & Htr).
  by exists s'.
Qed.

(** C3, amended: on a miss, when the loader returns an error [e] together
    with a value [v] and a lifespan [span]: with [enableNullData] off,
    [Get] returns [e] itself and no entry, and the table and the heap are
    as before; with [enableNullData] on, [Get] returns, with no error, a
    new entry holding the value [v] that the loader returned (nil only if
    the loader returned nil) and the lifespan [span], and [Exists] then
    answers true for the key. *)
Theorem Get_loader_error
    (key : K) (f : Loader) (v : option V) (span : Duration) (e : error)
    (w' : W) s :
  lock (table s) = Unlocked →
  items (table s) !! key = None →
  loadData (table s) = Some f →
  f key (env s) = (v, span, Some e, w') →
  if enableNullData (table s) then
    ∃ p s', Get key s = Ok (Some p, None) s'
      ∧ items (table s') !! key = Some p
      ∧ heap s' !! p
        = Some (Build_CacheItem key v span (clock s) (clock s) 0 [])
      ∧ Exists key s' = Ok true s'
  else
    ∃ s', Get key s = Ok (None, Some e) s'
      ∧ table s' = table s ∧ heap s' = heap s.
Proof.
  intros Hl Hk Hf Hcall.
  destruct (enableNullData (table s)) eqn:Hnull.
  - destruct (Get_load_admit key f v span (Some e) w' s)
      as (s' & Hrun & Ht & Hh & _); auto.
    exists (length (heap s)), s'. split; [done|].
    assert (items (table s') !! key = Some (length (heap s))) as Hin.
    { rewrite Ht. simpl. apply lookup_insert_eq. }
    split; [done|]. split.
    { rewrite Hh, lookup_app_r by lia. by rewrite Nat.sub_diag. }
    rewrite Exists_run by (by rewrite Ht).
    rewrite Hin. by rewrite bool_decide_eq_true_2.
  - destruct (Get_load_error key f v span e w' s)
      as (s' & Hrun & Ht & Hh & _); auto.
    by exists s'.
Qed.


(** C8: whenever an expiration pass has replaced the entry of a key, the
    old entry had expired and had been accessed recently, the loader had
    returned a value and a lifespan without error, the new entry holds
    them, and the pass entered every added-item callback of the table, in
    the order of the registry, with the new entry: the reload goes through
    [addInternal], as [Set] does. *)
Theorem ExpirationCheck_refresh_notifies (order : list (K * loc)) s :
  lock (table s) = Unlocked →
  sweepable s →
  order ≡ₚ map_to_list (items (table s)) →
  ∃ s', ExpirationCheck order s = Ok tt s'
    ∧ ∀ k p p', items (table s) !! k = Some p →
        items (table s') !! k = Some p' → p' ≠ p →
        ∃ it v span pre post tb,
          heap s !! p = Some it
          ∧ expired (clock s) it ∧ recently_accessed (clock s) it
          ∧ loader_returned s k (v, span, None)
          ∧ heap s' !! p'
            = Some (Build_CacheItem k v span (clock s) (clock s) 0 [])
          ∧ trace s' = trace s ++ pre
              ++ map (λ f, CallAdded f p' tb) (addedItem (table s)) ++ post.
Proof.
  intros Hl Hsw Hperm.
  destruct (ExpirationCheck_run order s Hl Hsw Hperm)
    as (s' & Hrun & _ & _ & _ & _ & _ & Hs).
  exists s'. split; [done|].
  intros k p p' Hk Hk' Hne.
  destruct (proj1 Hsw _ _ Hk) as [it Hit].
  destruct (Hs k p it Hk Hit) as [(_ & Hkept & _)|[(_ & _ & (Hdel & _) & _)
    |(Hz & Hexp & Hauto & Hrec & v & span & Hld & Hre)]].
  - congruence.
  - congruence.
  - destruct Hre as (q & pre & post & tb & Hq & _ & Hnew & _ & _ & Htr).
    assert (q = p') as -> by congruence.
    by exists it, v, span, pre, post, tb.
Qed.

(** ** The registry *)

Lemma New_fresh (name : string) (ci : Duration) g :
  mutex g = Unlocked →
  cache g !! name = None →
  New name ci g
  = Ok (length (tables g))
      (Build_Registry (<[name := length (tables g)]> (cache g)) Unlocked
         (tables g ++ [new_table name ci]) (goroutines g)).
Proof.
  intros Hm Hc. unfold New, registry_mutex_op. unfold_monad.
  rewrite Hm. simpl. rewrite Hc. simpl. by rewrite Hc.
Qed.

(** What [runJanitor] would do for a table, were it called: the janitor is
    installed and its goroutine started, whatever the interval. *)
Lemma runJanitor_run (c : nat) (ci : Duration) tb g :
  tables g !! c = Some tb →
  ∃ g', runJanitor c ci g = Ok tt g'
    ∧ tables g' !! c = Some (set_janitor (Some (Build_janitor_t ci)) tb)
    ∧ goroutines g' = goroutines g ++ [c].
Proof.
  intros Hc. unfold runJanitor. rewrite Hc.
  eexists. split; [reflexivity|]. simpl.
  split; [|done]. apply list_lookup_insert_eq. by eapply lookup_lt_Some.
Qed.

(** C4, as the code has it: a table that [New] creates has no janitor,
    whatever its cleanup interval, and no janitor goroutine is started.
    [New] fills in the name, the interval and the items; [runJanitor] is
    not called. *)
Theorem New_starts_no_janitor (name : string) (ci : Duration) g :
  mutex g = Unlocked →
  cache g !! name = None →
  (0 < ci)%Z →
  ∃ t tb g', New name ci g = Ok t g'
    ∧ cache g' !! name = Some t
    ∧ tables g' !! t = Some tb
    ∧ cleanupInterval tb = ci
    ∧ janitor tb = None
    ∧ goroutines g' = goroutines g.
Proof.
  intros Hm Hc Hci. rewrite New_fresh by done.
  eexists _, (new_table name ci), _. split; [reflexivity|]. simpl.
  split; [apply lookup_insert_eq|].
  split; [|done].
  rewrite lookup_app_r by lia. by rewrite Nat.sub_diag.
Qed.
End claims.

(** * The claim about the ranking *)

Lemma by_count_desc_sorts {K : Type} : sorts (@by_count_desc K).
Proof.
  intros l. unfold by_count_desc. split.
  - apply merge_sort_Permutation.
  - match goal with |- Sorted _ ?l' => rewrite <- (list_fmap_id l') end.
    eapply Sorted_fmap; [|apply Sorted_merge_sort].
    + intros x y Hxy. simpl in *. unfold Less.
      apply bool_decide_eq_false. lia.
    + intros x y. simpl. lia.
Qed.


Lemma ranked_state_hits (k : Z) (p : loc) :
  items (table ranked_state) !! k = Some p →
  accessCount <$> heap ranked_state !! p = Some k.
Proof.
  change (items (table ranked_state)) with ranked_items.
  change (heap ranked_state) with ranked_heap.
  unfold ranked_items, ranked_heap.
  intros Hk. apply elem_of_list_to_map_2 in Hk.
  apply list_elem_of_fmap in Hk as (k' & [= -> ->] & Hk').
  apply elem_of_seqZ in Hk'.
  rewrite list_lookup_fmap, lookup_seqZ_lt by lia. cbn [fmap option_fmap option_map accessCount].
  f_equal. lia.
Qed.


(** * The theorems at work on the tables of the tests *)

Lemma callbacks_state_allocated : allocated callbacks_state.
Proof.
  change (map_Forall (λ _ p, is_Some (heap callbacks_state !! p))
            (items (table callbacks_state))).
  apply (bool_decide_unpack _). vm_compute. exact I.
Qed.

Lemma sweep_state_sweepable : sweepable sweep_state.
Proof.
  split.
  - change (map_Forall (λ _ p, is_Some (heap sweep_state !! p))
              (items (table sweep_state))).
    apply (bool_decide_unpack _). vm_compute. exact I.
  - intros _. by eexists.
Qed.

(** [Set] on the table of [TestCallbackQueue]: both added-item callbacks are
    entered under the write lock. *)
Lemma Set_callbacks_under_write_lock_witness :
  lock (table callbacks_state) = Unlocked
  ∧ ∃ s' tb,
      Set_ "testkey" 0%Z (Some "testvalue") callbacks_state = Ok 1 s'
      ∧ lock tb = WLocked
      ∧ trace s' = [CallAdded "added1" 1 tb; CallAdded "added2" 1 tb]
      ∧ lock (table s') = Unlocked.
Proof.
  split; [reflexivity|].
  exact (Set_callbacks_under_write_lock "testkey" 0%Z (Some "testvalue")
           callbacks_state eq_refl).
Defined.

(** [Set] over the entry already cached under ["testkey"]. *)
Lemma Set_replaces_silently_witness :
  lock (table callbacks_state) = Unlocked
  ∧ items (table callbacks_state) !! "testkey" = Some 0
  ∧ ∃ s' tb,
      Set_ "testkey" 0%Z (Some "again") callbacks_state = Ok 1 s'
      ∧ trace s' = [CallAdded "added1" 1 tb; CallAdded "added2" 1 tb]
      ∧ (∀ e, e ∈ drop 0 (trace s') → ∃ f, e = CallAdded f 1 tb)
      ∧ items (table s') !! "testkey" = Some 1
      ∧ (∀ k', k' ≠ "testkey" →
           items (table s') !! k' = items (table callbacks_state) !! k')
      ∧ (∀ q it, heap callbacks_state !! q = Some it → heap s' !! q = Some it).
Proof.
  split; [reflexivity|]. split; [reflexivity|].
  exact (Set_replaces_silently "testkey" 0%Z (Some "again") 0
           callbacks_state eq_refl eq_refl).
Defined.

(** [Delete] of a key that is not cached, and of the cached ["testkey"]. *)
Lemma Delete_spec_witness :
  lock (table callbacks_state) = Unlocked
  ∧ allocated callbacks_state
  ∧ Delete "nokey" callbacks_state
    = Ok (None, Some ErrKeyNotFound) callbacks_state
  ∧ ∃ it s',
      heap callbacks_state !! 0 = Some it
      ∧ Delete "testkey" callbacks_state = Ok (Some 0, None) s'
      ∧ trace s'
        = CallAboutToDelete "deleting" 0 callbacks_table
          :: map (λ f, CallAboutToExpire f "testkey" callbacks_table)
               (aboutToExpire it)
      ∧ items (table s') = delete "testkey" (items callbacks_table).
Proof.
  split; [reflexivity|]. split; [exact callbacks_state_allocated|].
  split.
  - exact (Delete_spec "nokey" callbacks_state eq_refl
             callbacks_state_allocated).
  - exact (Delete_spec "testkey" callbacks_state eq_refl
             callbacks_state_allocated).
Defined.

(** The entry that [Delete] hands back can still be read. *)
Lemma Delete_returns_entry_witness :
  lock (table callbacks_state) = Unlocked
  ∧ items (table callbacks_state) !! "testkey" = Some 0
  ∧ heap callbacks_state !! 0
    = Some (Build_CacheItem "testkey" (Some "testvalue") (500 * Millisecond)
              0 0 0 ["expiring1"; "expiring2"])
  ∧ ∃ s', Delete "testkey" callbacks_state = Ok (Some 0, None) s'
      ∧ items (table s') !! "testkey" = None
      ∧ heap s' !! 0
        = Some (Build_CacheItem "testkey" (Some "testvalue")
                  (500 * Millisecond) 0 0 0 ["expiring1"; "expiring2"]).
Proof.
  split; [reflexivity|]. split; [reflexivity|]. split; [reflexivity|].
  exact (Delete_returns_entry "testkey" 0 _ callbacks_state
           eq_refl eq_refl eq_refl).
Defined.

(** The three registries of the table of [TestCallbackQueue]. *)
Lemma callback_registries_witness :
  lock (table callbacks_state) = Unlocked
  ∧ items (table callbacks_state) !! "testkey" = Some 0
  ∧ (∃ s', SetAddedItemCallback "only" callbacks_state = Ok tt s'
           ∧ addedItem (table s') = ["only"])
  ∧ (∃ s', SetAboutToDeleteItemCallback "only" callbacks_state = Ok tt s'
           ∧ aboutToDeleteItem (table s') = ["only"])
  ∧ (∃ s', SetAboutToExpireCallback 0 "only" callbacks_state = Ok tt s'
           ∧ aboutToExpire <$> heap s' !! 0 = Some ["only"])
  ∧ (∃ s', AddAddedItemCallback "added3" callbacks_state = Ok tt s'
           ∧ addedItem (table s') = ["added1"; "added2"; "added3"])
  ∧ (∃ s', AddAboutToDeleteItemCallback "deleting2" callbacks_state = Ok tt s'
           ∧ aboutToDeleteItem (table s') = ["deleting"; "deleting2"])
  ∧ (∃ s', AddAboutToExpireCallback 0 "expiring3" callbacks_state = Ok tt s'
           ∧ aboutToExpire <$> heap s' !! 0
             = Some ["expiring1"; "expiring2"; "expiring3"])
  ∧ (∃ s' tb, Set_ "testkey" 0%Z (Some "v") callbacks_state = Ok 1 s'
       ∧ trace s' = [CallAdded "added1" 1 tb; CallAdded "added2" 1 tb])
  ∧ (∃ s', Delete "testkey" callbacks_state = Ok (Some 0, None) s'
       ∧ trace s'
         = [CallAboutToDelete "deleting" 0 callbacks_table;
            CallAboutToExpire "expiring1" "testkey" callbacks_table;
            CallAboutToExpire "expiring2" "testkey" callbacks_table]).
Proof.
  split; [reflexivity|]. split; [reflexivity|].
  pose proof (callback_registries "only" "only" "testkey" 0%Z (Some "v") 0 _
                callbacks_state eq_refl eq_refl eq_refl)
    as (H1 & H2 & H3 & _ & _ & _ & H7 & H8).
  pose proof (callback_registries "added3" "expiring3" "testkey" 0%Z (Some "v")
                0 _ callbacks_state eq_refl eq_refl eq_refl)
    as (_ & _ & _ & H4 & _ & H6 & _ & _).
  pose proof (callback_registries "deleting2" "expiring3" "testkey" 0%Z
                (Some "v") 0 _ callbacks_state eq_refl eq_refl eq_refl)
    as (_ & _ & _ & _ & H5 & _ & _ & _).
  repeat split; assumption.
Defined.

(** The key ["nil"] of [TestDataLoader], with null data on and off. *)
Lemma Get_loader_error_witness :
  (lock (table (empty_state (loading_table test_loader true))) = Unlocked
   ∧ test_loader "nil" 0 = (None, 0%Z, Some (ErrUser "not found"), 0)
   ∧ ∃ p s', Get "nil" (empty_state (loading_table test_loader true))
             = Ok (Some p, None) s'
       ∧ items (table s') !! "nil" = Some p
       ∧ heap s' !! p = Some (Build_CacheItem "nil" None 0 0 0 0 [])
       ∧ Exists "nil" s' = Ok true s')
  ∧ (lock (table (empty_state (loading_table test_loader false))) = Unlocked
     ∧ ∃ s', Get "nil" (empty_state (loading_table test_loader false))
             = Ok (None, Some (ErrUser "not found")) s'
         ∧ table s' = loading_table test_loader false ∧ heap s' = []).
Proof.
  split.
  - split; [reflexivity|]. split; [reflexivity|].
    exact (Get_loader_error "nil" test_loader None 0%Z (ErrUser "not found") 0
             (empty_state (loading_table test_loader true))
             eq_refl eq_refl eq_refl eq_refl).
  - split; [reflexivity|].
    exact (Get_loader_error "nil" test_loader None 0%Z (ErrUser "not found") 0
             (empty_state (loading_table test_loader false))
             eq_refl eq_refl eq_refl eq_refl).
Defined.

(** C3, as stated, fails: with [enableNullData] on and a loader that returns
    the value ["stale"] together with its error, the entry that [Get] admits
    and returns holds ["stale"], not nil. *)
Lemma Get_null_entry_counterexample :
  lock (table (empty_state (loading_table stale_loader true))) = Unlocked
  ∧ items (table (empty_state (loading_table stale_loader true))) !! "k" = None
  ∧ loadData (table (empty_state (loading_table stale_loader true)))
    = Some stale_loader
  ∧ stale_loader "k" 0 = (Some "stale", Second, Some (ErrUser "backend down"), 0)
  ∧ enableNullData (table (empty_state (loading_table stale_loader true)))
    = true
  ∧ ¬ ∃ p s' it,
        Get "k" (empty_state (loading_table stale_loader true))
        = Ok (Some p, None) s'
        ∧ heap s' !! p = Some it
        ∧ data it = None.
Proof.
  repeat (split; [reflexivity|]).
  intros (p & s' & it & Hget & Hit & Hdata).
  destruct (Get_load_admit "k" stale_loader (Some "stale") Second
              (Some (ErrUser "backend down")) 0
              (empty_state (loading_table stale_loader true)))
    as (s2 & Hrun & _ & Hh & _); try reflexivity; [by right|].
  rewrite Hrun in Hget. injection Hget as <- <-.
  rewrite Hh in Hit. simpl in Hit. injection Hit as <-.
  discriminate Hdata.
Qed.





(** The reload of ["warm"] in that pass tells the added-item observer. *)
Lemma ExpirationCheck_refresh_notifies_witness :
  lock (table sweep_state) = Unlocked
  ∧ sweepable sweep_state
  ∧ items (table sweep_state) !! "warm" = Some 3
  ∧ ∃ s', ExpirationCheck (map_to_list (items sweep_table)) sweep_state
          = Ok tt s'
      ∧ items (table s') !! "warm" = Some 4
      ∧ ∃ it v span pre post tb,
          heap sweep_state !! 3 = Some it
          ∧ expired (clock sweep_state) it
          ∧ recently_accessed (clock sweep_state) it
          ∧ loader_returned sweep_state "warm" (v, span, None)
          ∧ heap s' !! 4
            = Some (Build_CacheItem "warm" v span (clock sweep_state)
                      (clock sweep_state) 0 [])
          ∧ trace s' = trace sweep_state ++ pre
              ++ map (λ f, CallAdded f 4 tb) (addedItem (table sweep_state))
              ++ post.
Proof.
  split; [reflexivity|]. split; [exact sweep_state_sweepable|].
  split; [reflexivity|].
  destruct (ExpirationCheck_refresh_notifies
              (map_to_list (items sweep_table)) sweep_state
              eq_refl sweep_state_sweepable (reflexivity _))
    as (s' & Hrun & Hall).
  exists s'. split; [exact Hrun|].
  assert (items (table s') !! "warm" = Some 4) as Hwarm.
  { pose proof (f_equal (λ o, match o with
                               | Ok _ s => items (table s) !! "warm"
                               | Fault _ => None
                               end) Hrun) as Hitems.
    vm_compute in Hitems. symmetry. exact Hitems. }
  split; [exact Hwarm|].
  apply (Hall "warm" 3 4 eq_refl Hwarm). discriminate.
Defined.

(** The table of [TestCacheKeepAlive], made with a cleanup interval of one
    millisecond. *)
Lemma New_starts_no_janitor_witness :
  mutex empty_registry = Unlocked
  ∧ cache empty_registry !! "testKeepAlive" = None
  ∧ (0 < Millisecond)%Z
  ∧ ∃ t tb g', New "testKeepAlive" Millisecond empty_registry = Ok t g'
      ∧ cache g' !! "testKeepAlive" = Some t
      ∧ tables g' !! t = Some tb
      ∧ cleanupInterval tb = Millisecond
      ∧ janitor tb = None
      ∧ goroutines g' = goroutines empty_registry.
Proof.
  split; [reflexivity|]. split; [reflexivity|]. split; [reflexivity|].
  exact (New_starts_no_janitor "testKeepAlive" Millisecond empty_registry
           eq_refl eq_refl eq_refl).
Defined.

Lemma ranked_state_allocated : allocated ranked_state.
Proof.
  intros k p Hk. apply ranked_state_hits in Hk.
  destruct (heap ranked_state !! p); [by eexists|done].
Qed.



(** * More of the table: what the other operations do *)

Section operations.
Context {K : Type} `{Countable K} {V W ItemCb KeyCb : Type}.

Local Abbreviation State := (@State K _ _ V W ItemCb KeyCb).
Local Abbreviation CacheTable := (@CacheTable K _ _ V W ItemCb).
Local Abbreviation CacheItem := (@CacheItem K V KeyCb).
Local Abbreviation Loader := (@Loader K V W).
Implicit Types (s : State) (t : CacheTable) (it : CacheItem).

(** The runs of the operations on a table whose mutex is free. *)

Lemma Count_run s :
  lock (table s) = Unlocked → Count s = Ok (size (items (table s))) s.
Proof.
  intros Hl. unfold Count, RLock, RUnlock, mutex_op, the_table.
  unfold_monad. rewrite Hl. simpl. rewrite unlock_rlock by done.
  by destruct s.
Qed.

Lemma Add_run (key : K) (ls : Duration) (d : option V) s :
  lock (table s) = Unlocked →
  match items (table s) !! key with
  | Some _ => Add key ls d s = Ok false s
  | None =>
      ∃ s', Add key ls d s = Ok true s'
        ∧ table s'
          = set_items (<[key := length (heap s)]> (items (table s))) (table s)
        ∧ heap s'
          = heap s ++ [Build_CacheItem key d ls (clock s) (clock s) 0 []]
        ∧ env s' = env s
        ∧ trace s' = trace s
            ++ map (λ f, CallAdded f (length (heap s))
                           (set_lock WLocked (table s')))
                 (addedItem (table s))
  end.
Proof.
  intros Hl. unfold Add, Lock, Unlock, mutex_op, the_table. unfold_monad.
  rewrite Hl. simpl.
  destruct (items (table s) !! key) as [r|] eqn:Hk.
  - rewrite bool_decide_eq_true_2 by (by eexists). simpl.
    rewrite relock by done. by destruct s.
  - rewrite bool_decide_eq_false_2 by (by intros [? ?]).
    unfold NewCacheItem, time_Now. unfold_monad. simpl.
    match goal with |- context [addInternal ?p ?s1] =>
      destruct (addInternal_run p
                  (Build_CacheItem key d ls (clock s) (clock s) 0 []) s1)
        as (s2 & -> & Ht & Hh & He & Hc & Htr)
    end.
    { simpl. rewrite lookup_app_r by lia. by rewrite Nat.sub_diag. }
    simpl in *. rewrite Ht. simpl.
    eexists. split; [reflexivity|]. simpl.
    rewrite Hh, He, Htr, Ht. simpl.
    repeat split; try done.
    destruct (table s); simpl in *. by subst.
Qed.

Lemma Get_found (key : K) (r : loc) it s :
  lock (table s) = Unlocked →
  items (table s) !! key = Some r →
  heap s !! r = Some it →
  ∃ s', Get key s = Ok (Some r, None) s'
    ∧ table s' = table s ∧ env s' = env s ∧ trace s' = trace s
    ∧ heap s' = <[r := set_accessed (clock s) it]> (heap s).
Proof.
  intros Hl Hk Hit.
  unfold Get, RLock, RUnlock, mutex_op, the_table, KeepAlive, deref, time_Now.
  unfold_monad. rewrite Hl. simpl. rewrite Hk. simpl. rewrite Hit. simpl.
  eexists. split; [reflexivity|]. simpl.
  by rewrite unlock_rlock.
Qed.

Lemma Get_absent (key : K) s :
  lock (table s) = Unlocked →
  items (table s) !! key = None →
  loadData (table s) = None →
  Get key s = Ok (None, Some ErrKeyNotFound) s.
Proof.
  intros Hl Hk Hld. unfold Get, RLock, RUnlock, mutex_op, the_table.
  unfold_monad. rewrite Hl. simpl. rewrite Hk, Hld. simpl.
  rewrite unlock_rlock by done. by destruct s.
Qed.

Lemma Flush_run s :
  lock (table s) = Unlocked →
  ∃ s', Flush s = Ok tt s'
    ∧ table s' = set_cleanupInterval 0 (set_items ∅ (table s))
    ∧ heap s' = heap s ∧ env s' = env s ∧ trace s' = trace s
    ∧ Count s' = Ok 0 s'
    ∧ ∀ k, Exists k s' = Ok false s'.
Proof.
  intros Hl. unfold Flush, Lock, Unlock, mutex_op, the_table, update_table, log.
  unfold_monad. rewrite Hl. simpl. rewrite table_written. simpl.
  eexists. split; [reflexivity|]. simpl.
  rewrite heap_written, env_written, trace_written. simpl.
  split. { destruct (table s); simpl in *. by subst. }
  split; [done|]. split; [done|]. split; [done|].
  split.
  - rewrite Count_run by done. simpl. by rewrite map_size_empty.
  - intros k. rewrite Exists_run by done. simpl.
    rewrite lookup_empty. rewrite bool_decide_eq_false_2; [done|].
    by intros [? ?].
Qed.

(** X1: [Add] admits only when the key is free.  On a key that is present it
    returns false and leaves the whole state as it was: no entry is made,
    no callback entered.  On a free key it returns true, stores a new item
    under the key and enters the added-item callbacks, as [Set] does. *)
Theorem Add_spec (key : K) (ls : Duration) (d : option V) s :
  lock (table s) = Unlocked →
  match items (table s) !! key with
  | Some _ => Add key ls d s = Ok false s
  | None =>
      ∃ s', Add key ls d s = Ok true s'
        ∧ table s'
          = set_items (<[key := length (heap s)]> (items (table s))) (table s)
        ∧ heap s'
          = heap s ++ [Build_CacheItem key d ls (clock s) (clock s) 0 []]
        ∧ env s' = env s
        ∧ trace s' = trace s
            ++ map (λ f, CallAdded f (length (heap s))
                           (set_lock WLocked (table s')))
                 (addedItem (table s))
  end.
Proof. exact (Add_run key ls d s). Qed.

(** X2: [Get] of a cached key returns the entry the table holds, with no
    error.  The loader is not called, no callback is entered and the table
    is as before; on the heap only that entry changes: it is kept alive
    (access time set to now, access count one higher). *)
Theorem Get_hit (key : K) (r : loc) it s :
  lock (table s) = Unlocked →
  items (table s) !! key = Some r →
  heap s !! r = Some it →
  ∃ s', Get key s = Ok (Some r, None) s'
    ∧ table s' = table s ∧ env s' = env s ∧ trace s' = trace s
    ∧ heap s' = <[r := set_accessed (clock s) it]> (heap s).
Proof. exact (Get_found key r it s). Qed.

(** X3: [Get] of a key that is not cached, on a table whose [loadData] is
    nil, fails with [ErrKeyNotFound] and changes nothing.  [Get] looks at
    [loadData] alone, so this is also what happens after
    [SetDataLoader(nil)]. *)
Theorem Get_miss (key : K) s :
  lock (table s) = Unlocked →
  items (table s) !! key = None →
  loadData (table s) = None →
  Get key s = Ok (None, Some ErrKeyNotFound) s.
Proof. exact (Get_absent key s). Qed.

(** X4: what the loader produced is cached.  When a [Get] on a missing key
    admits an entry (the loader returned no error, or null data is
    enabled), the next [Get] of the key returns that same entry without
    calling the loader again: the loader's environment is untouched and the
    entry has been read once. *)
Theorem Get_caches_load
    (key : K) (f : Loader) (v : option V) (span : Duration)
    (err : option error) (w' : W) s :
  lock (table s) = Unlocked →
  items (table s) !! key = None →
  loadData (table s) = Some f →
  f key (env s) = (v, span, err, w') →
  err = None ∨ enableNullData (table s) = true →
  ∃ p s1 s2,
    Get key s = Ok (Some p, None) s1
    ∧ env s1 = w'
    ∧ Get key s1 = Ok (Some p, None) s2
    ∧ env s2 = w'
    ∧ table s2 = table s1
    ∧ heap s2 !! p
      = Some (Build_CacheItem key v span (clock s) (clock s) 1 []).
Proof.
  intros Hl Hk Hf Hcall Hadmit.
  destruct (Get_load_admit key f v span err w' s Hl Hk Hf Hcall Hadmit)
    as (s1 & Hrun & Ht & Hh & Hc & He & _).
  assert (heap s1 !! length (heap s)
          = Some (Build_CacheItem key v span (clock s) (clock s) 0 [])) as Hp.
  { rewrite Hh, lookup_app_r by lia. by rewrite Nat.sub_diag. }
  assert (lock (table s1) = Unlocked) as Hl1 by (by rewrite Ht).
  assert (items (table s1) !! key = Some (length (heap s))) as Hk1.
  { rewrite Ht. simpl. apply lookup_insert_eq. }
  destruct (Get_found key _ _ s1 Hl1 Hk1 Hp)
    as (s2 & Hrun2 & Ht2 & He2 & _ & Hh2).
  exists (length (heap s)), s1, s2.
  split; [done|]. split; [done|]. split; [done|].
  split; [congruence|]. split; [done|].
  rewrite Hh2, list_lookup_insert_eq by (by eapply lookup_lt_Some).
  by rewrite Hc.
Qed.

(** X5: what [Set] stores, [Get] returns.  After [Set key ls d], [Exists]
    answers true and [Get] returns the address [Set] returned, with no
    error; the entry there holds [d] and [ls] and has been read once. *)
Theorem Set_then_Get (key : K) (ls : Duration) (d : option V) s :
  lock (table s) = Unlocked →
  ∃ p s1 s2 it,
    Set_ key ls d s = Ok p s1
    ∧ Exists key s1 = Ok true s1
    ∧ Get key s1 = Ok (Some p, None) s2
    ∧ heap s2 !! p = Some it
    ∧ data it = d ∧ lifeSpan it = ls ∧ accessCount it = 1%Z.
Proof.
  intros Hl.
  destruct (Set_run key ls d s Hl) as (s1 & Hrun & Ht & Hh & _).
  assert (lock (table s1) = Unlocked) as Hl1 by (by rewrite Ht).
  assert (items (table s1) !! key = Some (length (heap s))) as Hk1.
  { rewrite Ht. simpl. apply lookup_insert_eq. }
  assert (heap s1 !! length (heap s)
          = Some (Build_CacheItem key d ls (clock s) (clock s) 0 [])) as Hp.
  { rewrite Hh, lookup_app_r by lia. by rewrite Nat.sub_diag. }
  destruct (Get_found key _ _ s1 Hl1 Hk1 Hp) as (s2 & Hrun2 & _ & _ & _ & Hh2).
  exists (length (heap s)), s1, s2. eexists.
  split; [done|]. split.
  { rewrite Exists_run by done. rewrite Hk1.
    by rewrite bool_decide_eq_true_2. }
  split; [done|]. split.
  { rewrite Hh2. apply list_lookup_insert_eq. by eapply lookup_lt_Some. }
  done.
Qed.

(** X6: a deleted key is gone.  After [Delete] of a present key, [Exists]
    answers false for it, a [Get] without loader and a second [Delete] both
    fail with [ErrKeyNotFound] and change nothing, and [Exists] answers for
    every other key what it answered before. *)
Theorem Delete_then_missing (key : K) (r : loc) it s :
  lock (table s) = Unlocked →
  items (table s) !! key = Some r →
  heap s !! r = Some it →
  ∃ s', Delete key s = Ok (Some r, None) s'
    ∧ Exists key s' = Ok false s'
    ∧ Delete key s' = Ok (None, Some ErrKeyNotFound) s'
    ∧ (loadData (table s) = None →
       Get key s' = Ok (None, Some ErrKeyNotFound) s')
    ∧ ∀ k', k' ≠ key →
        Exists k' s'
        = Ok (bool_decide (is_Some (items (table s) !! k'))) s'.
Proof.
  intros Hl Hk Hit.
  destruct (Delete_run key r it s Hl Hk Hit) as (s' & Hrun & Ht & _).
  assert (lock (table s') = Unlocked) as Hl' by (by rewrite Ht).
  assert (items (table s') !! key = None) as Hk'.
  { rewrite Ht. simpl. apply lookup_delete_eq. }
  exists s'. split; [done|]. split.
  { rewrite Exists_run by done. rewrite Hk'.
    rewrite bool_decide_eq_false_2; [done|]. by intros [? ?]. }
  split; [by apply Delete_absent|]. split.
  { intros Hld. apply Get_absent; [done..|]. by rewrite Ht. }
  intros k' Hne. rewrite Exists_run by done.
  by rewrite Ht; simpl; rewrite lookup_delete_ne.
Qed.

(** X7: [Flush] empties the table without telling anybody.  Afterwards no
    key exists and the count is 0; no callback has been entered and the
    items that were cached are still allocated, unchanged.  The cleanup
    interval is set to 0 while the janitor field, the loader and the
    registries are left as they were. *)
Theorem Flush_spec s :
  lock (table s) = Unlocked →
  ∃ s', Flush s = Ok tt s'
    ∧ table s' = set_cleanupInterval 0 (set_items ∅ (table s))
    ∧ heap s' = heap s ∧ env s' = env s ∧ trace s' = trace s
    ∧ Count s' = Ok 0 s'
    ∧ ∀ k, Exists k s' = Ok false s'.
Proof. exact (Flush_run s). Qed.

(** X8: [Count] is the number of keys and changes nothing.  It goes up by
    one when [Set] stores a key that was free, stays the same when [Set]
    replaces an entry, and goes down by one with each [Delete] of a present
    key. *)
Theorem Count_tracks (key : K) (ls : Duration) (d : option V) s :
  lock (table s) = Unlocked →
  allocated s →
  Count s = Ok (size (items (table s))) s
  ∧ (∃ p s', Set_ key ls d s = Ok p s'
       ∧ Count s'
         = Ok (match items (table s) !! key with
               | Some _ => size (items (table s))
               | None => S (size (items (table s)))
               end) s')
  ∧ (is_Some (items (table s) !! key) →
     ∃ r s', Delete key s = Ok r s'
       ∧ Count s' = Ok (pred (size (items (table s)))) s').
Proof.
  intros Hl Hwf.
  split; [by apply Count_run|]. split.
  - destruct (Set_run key ls d s Hl) as (s' & Hrun & Ht & _).
    exists (length (heap s)), s'. split; [done|].
    rewrite Count_run by (by rewrite Ht). rewrite Ht. simpl.
    rewrite map_size_insert. by destruct (items (table s) !! key).
  - intros [r Hk]. destruct (Hwf _ _ Hk) as [it Hit].
    destruct (Delete_run key r it s Hl Hk Hit) as (s' & Hrun & Ht & _).
    exists (Some r, None), s'. split; [done|].
    rewrite Count_run by (by rewrite Ht). rewrite Ht. simpl.
    by rewrite map_size_delete, Hk.
Qed.

(** X9: whoever holds the mutex of the table blocks every operation that
    wants to write: started on a table whose mutex is not free, [Set],
    [Add], [Delete], [Flush], [ExpirationCheck] and the registrations of
    callbacks wait for ever.  Under the write lock the readers [Get],
    [Exists] and [Count] wait as well.  A callback entered with the lock
    held can therefore not call back into the table. *)
Theorem locked_table_blocks
    (key : K) (ls : Duration) (d : option V) (f : ItemCb)
    (order : list (K * loc)) s :
  lock (table s) ≠ Unlocked →
  Set_ key ls d s = Fault Deadlock
  ∧ Add key ls d s = Fault Deadlock
  ∧ Delete key s = Fault Deadlock
  ∧ Flush s = Fault Deadlock
  ∧ ExpirationCheck order s = Fault Deadlock
  ∧ AddAddedItemCallback f s = Fault Deadlock
  ∧ AddAboutToDeleteItemCallback f s = Fault Deadlock
  ∧ RemoveAddedItemCallbacks s = Fault Deadlock
  ∧ RemoveAboutToDeleteItemCallback s = Fault Deadlock
  ∧ (lock (table s) = WLocked →
     Get key s = Fault Deadlock
     ∧ Exists key s = Fault Deadlock
     ∧ Count s = Fault Deadlock).
Proof.
  intros Hl.
  assert (RWMutex_Lock (lock (table s)) = inl Deadlock) as HL.
  { by destruct (lock (table s)). }
  unfold Set_, Add, Delete, Flush, ExpirationCheck, AddAddedItemCallback,
    AddAboutToDeleteItemCallback, RemoveAddedItemCallbacks,
    RemoveAboutToDeleteItemCallback, Get, Exists, Count, NewCacheItem,
    time_Now, Lock, RLock, mutex_op.
  unfold_monad. simpl. rewrite HL.
  repeat (split; [done|]).
  intros ->. done.
Qed.

(** X10: [Foreach] runs the visitor on every entry of the range, one
    after the other, with the read lock held.  A visitor that only looks
    finds the mutex read-locked at every visit, and after the loop the
    table, the items and the trace are as before, the lock is free again,
    and what the visitor captured is the fold of its calls; a visitor that
    does the same at every entry has done it as many times as the table
    has keys.  A visitor that calls [Delete] or [Set] on the table it is
    shown waits for ever at the first entry. *)
Theorem Foreach_spec
    (order : list (K * loc))
    (f : K → loc → CacheTable → list CacheItem → W → W) s :
  lock (table s) = Unlocked →
  order ≡ₚ map_to_list (items (table s)) →
  (∃ s', Foreach order (looking f) s = Ok tt s'
     ∧ table s' = table s ∧ heap s' = heap s ∧ trace s' = trace s
     ∧ env s'
       = foldl (λ w e, f e.1 e.2 (set_lock (RLocked 0) (table s)) (heap s) w)
           (env s) order
     ∧ ∀ step : W → W, (∀ k v t h w, f k v t h w = step w) →
         env s' = Nat.iter (size (items (table s))) step (env s))
  ∧ (items (table s) ≠ ∅ →
     Foreach order (λ k _, Delete k;; mret tt) s = Fault Deadlock
     ∧ ∀ ls d, Foreach order (λ k _, Set_ k ls d;; mret tt) s
               = Fault Deadlock).
Proof.
  intros Hl Hperm. split.
  - assert (∀ s0, forM_ order (λ '(k, v), looking f k v) s0
            = Ok tt (set_env
                       (foldl (λ w e, f e.1 e.2 (table s0) (heap s0) w)
                          (env s0) order) s0)) as Hloop.
    { clear Hperm. induction order as [|[k v] order IH]; intros s0.
      - simpl. unfold_monad. by destruct s0.
      - simpl. unfold_monad. unfold looking at 1. unfold_monad.
        rewrite IH. simpl. done. }
    unfold Foreach, RLock, RUnlock, mutex_op. unfold_monad.
    rewrite Hl. simpl. rewrite Hloop. simpl.
    eexists. split; [reflexivity|]. simpl.
    split. { destruct (table s); simpl in *. by subst. }
    split; [done|]. split; [done|]. split; [done|].
    intros step Hstep.
    assert (size (items (table s)) = length order) as ->.
    { rewrite <- length_map_to_list. symmetry. by apply Permutation_length. }
    clear Hperm Hloop. generalize (env s).
    induction order as [|e order IH]; intros w; [done|].
    simpl. rewrite IH, Hstep. clear IH.
    induction (length order) as [|n IHn]; [done|]. simpl. by rewrite <- IHn.
  - intros Hne.
    destruct order as [|[k p] order].
    { exfalso. apply Hne. apply map_to_list_empty_iff.
      by apply Permutation_nil. }
    unfold Foreach, Delete, Set_, NewCacheItem, time_Now, Lock, RLock,
      mutex_op.
    unfold_monad. rewrite Hl. simpl. done.
Qed.
End operations.

(** * More of the registry and of the sort interface *)

Section registry.
Context {K : Type} `{Countable K} {V W ItemCb : Type}.

Local Abbreviation Registry := (@Registry K _ _ V W ItemCb).
Implicit Types (g : Registry).

Lemma New_existing (name : string) (ci : Duration) (t : nat) g :
  mutex g = Unlocked →
  cache g !! name = Some t →
  New name ci g = Ok t g.
Proof.
  intros Hm Hc. unfold New, registry_mutex_op. unfold_monad.
  rewrite Hm. simpl. rewrite Hc. destruct g; simpl in *. by subst.
Qed.

Lemma Cache_existing (name : string) (t : nat) g :
  mutex g = Unlocked →
  cache g !! name = Some t →
  Cache name g = Ok t g.
Proof.
  intros Hm Hc. unfold Cache, registry_mutex_op. unfold_monad.
  rewrite Hm. simpl. rewrite Hc. destruct g; simpl in *. by subst.
Qed.

Lemma Cache_fresh (name : string) g :
  mutex g = Unlocked →
  cache g !! name = None →
  Cache name g
  = Ok (length (tables g))
      (Build_Registry (<[name := length (tables g)]> (cache g)) Unlocked
         (tables g ++ [new_table name 0]) (goroutines g)).
Proof.
  intros Hm Hc. unfold Cache, registry_mutex_op. unfold_monad.
  rewrite Hm. simpl. rewrite Hc. simpl. by rewrite Hc.
Qed.

(** X11: a name means one table.  Once [New] has made the table of a name,
    every later [New] or [Cache] with that name returns the same table and
    changes nothing in the registry; the cleanup interval of the later call
    is ignored, the table keeps the interval it was made with. *)
Theorem registry_lookup_is_stable (name : string) (ci ci' : Duration) g :
  mutex g = Unlocked →
  cache g !! name = None →
  ∃ t g', New name ci g = Ok t g'
    ∧ New name ci' g' = Ok t g'
    ∧ Cache name g' = Ok t g'
    ∧ cleanupInterval <$> tables g' !! t = Some ci.
Proof.
  intros Hm Hc. rewrite New_fresh by done.
  eexists _, _. split; [reflexivity|].
  split; [by apply New_existing; [|apply lookup_insert_eq]|].
  split; [by apply Cache_existing; [|apply lookup_insert_eq]|].
  simpl. rewrite lookup_app_r by lia. by rewrite Nat.sub_diag.
Qed.

(** X12: a new name gets a table of its own.  In a registry whose names all
    lead to tables, [New] and [Cache] on a name that is free allocate a new
    table, empty and with zero values but for the name and the interval
    ([Cache]: interval 0), leave every other name and every existing table
    as they were, and no other name leads to the new table. *)
Theorem registry_fresh_table (name : string) (ci : Duration) g :
  mutex g = Unlocked →
  (∀ n c, cache g !! n = Some c → is_Some (tables g !! c)) →
  cache g !! name = None →
  (∃ t g', New name ci g = Ok t g'
     ∧ tables g' !! t = Some (new_table name ci)
     ∧ (∀ n, n ≠ name → cache g' !! n = cache g !! n ∧ cache g' !! n ≠ Some t)
     ∧ (∀ c tb, tables g !! c = Some tb → tables g' !! c = Some tb))
  ∧ (∃ t g', Cache name g = Ok t g'
       ∧ tables g' !! t = Some (new_table name 0)
       ∧ (∀ n, n ≠ name →
            cache g' !! n = cache g !! n ∧ cache g' !! n ≠ Some t)
       ∧ (∀ c tb, tables g !! c = Some tb → tables g' !! c = Some tb)).
Proof.
  intros Hm Hwf Hc.
  assert (∀ n, n ≠ name →
            <[name := length (tables g)]> (cache g) !! n = cache g !! n
            ∧ <[name := length (tables g)]> (cache g) !! n
              ≠ Some (length (tables g))) as Hnames.
  { intros n Hne. rewrite lookup_insert_ne by done. split; [done|].
    intros Hn. destruct (Hwf _ _ Hn) as [tb Htb].
    apply lookup_lt_Some in Htb. lia. }
  split.
  - rewrite New_fresh by done. eexists _, _. split; [reflexivity|]. simpl.
    split; [by rewrite lookup_app_r, Nat.sub_diag by lia|].
    split; [done|]. intros c tb Hc'. by apply lookup_app_l_Some.
  - rewrite Cache_fresh by done. eexists _, _. split; [reflexivity|]. simpl.
    split; [by rewrite lookup_app_r, Nat.sub_diag by lia|].
    split; [done|]. intros c tb Hc'. by apply lookup_app_l_Some.
Qed.
End registry.

(** * More of the table: what the operations keep *)

Section keeping.
Context {K : Type} `{Countable K} {V W ItemCb KeyCb : Type}.

Local Abbreviation State := (@State K _ _ V W ItemCb KeyCb).
Local Abbreviation CacheTable := (@CacheTable K _ _ V W ItemCb).
Local Abbreviation CacheItem := (@CacheItem K V KeyCb).
Local Abbreviation Loader := (@Loader K V W).
Implicit Types (s : State) (t : CacheTable) (it : CacheItem).

Lemma at_rest_admit (k : K) (x : CacheItem) s s' :
  at_rest s →
  table s' = set_items (<[k := length (heap s)]> (items (table s))) (table s) →
  heap s' = heap s ++ [x] →
  at_rest s'.
Proof.
  intros (Hl & Hwf & Hld) Ht Hh. split; [by rewrite Ht|]. split.
  - intros k' q. rewrite Ht, Hh. simpl. rewrite lookup_insert.
    case_decide.
    + intros [= <-]. rewrite lookup_app_r, Nat.sub_diag by lia. by eexists.
    + intros Hq. destruct (Hwf _ _ Hq) as [y Hy]. exists y.
      by apply lookup_app_l_Some.
  - by rewrite Ht.
Qed.

Lemma at_rest_delete (k : K) s s' :
  at_rest s →
  table s' = set_items (delete k (items (table s))) (table s) →
  heap s' = heap s →
  at_rest s'.
Proof.
  intros (Hl & Hwf & Hld) Ht Hh. split; [by rewrite Ht|]. split.
  - intros k' q. rewrite Ht, Hh. simpl. intros Hq.
    apply lookup_delete_Some in Hq as [_ Hq]. by eapply Hwf.
  - by rewrite Ht.
Qed.

(** X13: a table at rest stays at rest.  From a state in which the mutex is
    free, every cached item is allocated and a reloading table has its
    loader, each of [Set], [Add], [Delete], [Get], [Flush] and
    [ExpirationCheck] returns, without deadlock or panic, in a state of the
    same kind: the lock is released on every path and the table never
    holds a dangling item. *)
Theorem operations_keep_rest
    (key : K) (ls : Duration) (d : option V) s :
  at_rest s →
  (∃ p s', Set_ key ls d s = Ok p s' ∧ at_rest s')
  ∧ (∃ b s', Add key ls d s = Ok b s' ∧ at_rest s')
  ∧ (∃ r s', Delete key s = Ok r s' ∧ at_rest s')
  ∧ (∃ r s', Get key s = Ok r s' ∧ at_rest s')
  ∧ (∃ s', Flush s = Ok tt s' ∧ at_rest s')
  ∧ (∀ order, order ≡ₚ map_to_list (items (table s)) →
       ∃ s', ExpirationCheck order s = Ok tt s' ∧ at_rest s').
Proof.
  intros Hrest. pose proof Hrest as (Hl & Hsw). pose proof Hsw as (Hwf & Hld).
  split.
  { destruct (Set_run key ls d s Hl) as (s' & Hrun & Ht & Hh & _).
    exists (length (heap s)), s'. split; [done|].
    by eapply at_rest_admit. }
  split.
  { pose proof (Add_run key ls d s Hl) as HAdd.
    destruct (items (table s) !! key) as [r|].
    - by exists false, s.
    - destruct HAdd as (s' & Hrun & Ht & Hh & _).
      exists true, s'. split; [done|]. by eapply at_rest_admit. }
  split.
  { destruct (items (table s) !! key) as [r|] eqn:Hk.
    - destruct (Hwf _ _ Hk) as [it Hit].
      destruct (Delete_run key r it s Hl Hk Hit) as (s' & Hrun & Ht & Hh & _).
      exists (Some r, None), s'. split; [done|]. by eapply at_rest_delete.
    - exists (None, Some ErrKeyNotFound), s.
      split; [by apply Delete_absent|done]. }
  split.
  { destruct (items (table s) !! key) as [r|] eqn:Hk.
    - destruct (Hwf _ _ Hk) as [it Hit].
      destruct (Get_found key r it s Hl Hk Hit) as (s' & Hrun & Ht & _ & _ & Hh).
      exists (Some r, None), s'. split; [done|].
      split; [by rewrite Ht|]. split; [|by rewrite Ht].
      intros k' q. rewrite Ht, Hh. intros Hq.
      destruct (Hwf _ _ Hq) as [y Hy]. apply lookup_lt_Some in Hy.
      apply lookup_lt_is_Some. by rewrite length_insert.
    - destruct (loadData (table s)) as [f|] eqn:Hf.
      + destruct (f key (env s)) as [[[v span] err] w'] eqn:Hcall.
        destruct err as [e|]; [destruct (enableNullData (table s)) eqn:Hn|].
        * destruct (Get_load_admit key f v span (Some e) w' s)
            as (s' & Hrun & Ht & Hh & _); auto.
          eexists _, s'. split; [done|]. by eapply at_rest_admit.
        * destruct (Get_load_error key f v span e w' s)
            as (s' & Hrun & Ht & Hh & _); auto.
          eexists _, s'. split; [done|].
          split; [by rewrite Ht|]. split; [|by rewrite Ht].
          intros k' q. rewrite Ht, Hh. apply Hwf.
        * destruct (Get_load_admit key f v span None w' s)
            as (s' & Hrun & Ht & Hh & _); auto.
          eexists _, s'. split; [done|]. by eapply at_rest_admit.
      + exists (None, Some ErrKeyNotFound), s.
        split; [by apply Get_absent|done]. }
  split.
  { destruct (Flush_run s Hl) as (s' & Hrun & Ht & Hh & _).
    exists s'. split; [done|]. split; [by rewrite Ht|].
    split; [|by rewrite Ht].
    intros k' q. rewrite Ht. simpl. by rewrite lookup_empty. }
  intros order Hperm.
  destruct (ExpirationCheck_run order s Hl Hsw Hperm)
    as (s' & Hrun & Ht & _ & _ & _ & Hnone & Hs).
  exists s'. split; [done|].
  split; [by rewrite Ht|]. split; [|by rewrite Ht].
  intros k q Hq.
  destruct (items (table s) !! k) as [p|] eqn:Hk.
  - destruct (Hwf _ _ Hk) as [it Hit].
    destruct (Hs k p it Hk Hit) as [(_ & Hi & Hp)|[(_ & _ & (Hi & _) & _)
      |(_ & _ & _ & _ & v & span & _ & Hre)]].
    + assert (q = p) as -> by congruence. by eexists.
    + congruence.
    + destruct Hre as (p' & _ & _ & _ & Hi & _ & Hp' & _).
      assert (q = p') as -> by congruence. by eexists.
  - rewrite (Hnone k Hk) in Hq. done.
Qed.

(** ** Sweeps that do nothing, and sweeps that fail *)

Lemma sweep_entry_idle (now : Time) (k : K) (p : loc) it s :
  heap s !! p = Some it →
  lifeSpan it = 0%Z ∨ ¬ expired now it →
  sweep_entry now k p s = Ok tt s.
Proof.
  intros Hit Hwhy. unfold sweep_entry, deref. unfold_monad. rewrite Hit.
  destruct Hwhy as [Hz|Hne].
  - by rewrite bool_decide_eq_true_2.
  - case_bool_decide; [done|]. by rewrite bool_decide_eq_false_2.
Qed.

Lemma sweep_loop_idle (now : Time) (order : list (K * loc)) s :
  (∀ k p, (k, p) ∈ order →
     ∃ it, heap s !! p = Some it ∧ (lifeSpan it = 0%Z ∨ ¬ expired now it)) →
  forM_ order (λ '(key, item), sweep_entry now key item) s = Ok tt s.
Proof.
  induction order as [|[k p] order IH]; intros Hall; [done|].
  assert ((k, p) ∈ (k, p) :: order) as Hhd by left.
  destruct (Hall k p Hhd) as (it & Hit & Hwhy).
  pose proof (sweep_entry_idle now k p it s Hit Hwhy) as Hhead.
  simpl. unfold_monad. rewrite Hhead.
  apply IH. intros k' p' Hin. apply (Hall k' p'). by right.
Qed.

(** X14: a sweep over a table in which nothing has expired does nothing.
    When every entry has lifespan 0 or has not yet lived its lifespan (in
    particular when the table is empty), [ExpirationCheck] leaves table,
    items, loader environment and trace as they were: the loader is not
    consulted and no callback is entered. *)
Theorem ExpirationCheck_idle (order : list (K * loc)) s :
  lock (table s) = Unlocked →
  order ≡ₚ map_to_list (items (table s)) →
  (∀ k p, items (table s) !! k = Some p →
     ∃ it, heap s !! p = Some it
           ∧ (lifeSpan it = 0%Z ∨ ¬ expired (clock s) it)) →
  ∃ s', ExpirationCheck order s = Ok tt s'
    ∧ table s' = table s ∧ heap s' = heap s ∧ env s' = env s
    ∧ trace s' = trace s.
Proof.
  intros Hl Hperm Hall.
  destruct (ExpirationCheck_unfold order s Hl)
    as (s1 & Ht & Hh & He & Hc & Htr & ->).
  rewrite sweep_loop_idle.
  - unfold Unlock, mutex_op. rewrite Ht. simpl.
    eexists. split; [reflexivity|]. simpl.
    rewrite relock by done. done.
  - intros k p Hin. rewrite Hperm in Hin. apply elem_of_map_to_list in Hin.
    rewrite Hh. by apply (Hall k p).
Qed.

Lemma sweep_loop_nil_loader (now : Time) (order : list (K * loc)) s :
  lock (table s) = WLocked →
  allocated s →
  enableAutoLoad (table s) = true →
  loadData (table s) = None →
  NoDup order.*1 →
  (∀ k p, (k, p) ∈ order → items (table s) !! k = Some p) →
  (∃ k p it, (k, p) ∈ order ∧ heap s !! p = Some it
     ∧ lifeSpan it ≠ 0%Z ∧ expired now it ∧ recently_accessed now it) →
  forM_ order (λ '(key, item), sweep_entry now key item) s = Fault NilFunc.
Proof.
  revert s. induction order as [|[k0 p0] order IH];
    intros s Hl Hwf Hauto Hld Hnd Hin (k & p & it & Hkp & Hit & Hz & Hexp & Hrec).
  { by apply elem_of_nil in Hkp. }
  simpl in Hnd. apply NoDup_cons in Hnd as [Hk0 Hnd].
  assert (items (table s) !! k0 = Some p0) as Hi0 by (apply Hin; left).
  destruct (Hwf _ _ Hi0) as [it0 Hit0].
  simpl. unfold_monad.
  assert ((lifeSpan it0 = 0%Z ∨ ¬ expired now it0)
          ∨ (lifeSpan it0 ≠ 0%Z ∧ expired now it0)) as [Hidle|[Hz0 Hexp0]].
  { unfold expired. destruct (decide (lifeSpan it0 = 0%Z)); [by left; left|].
    destruct (decide (lifeSpan it0 ≤ Time_Sub now (createdOn it0))%Z);
      [by right|by left; right]. }
  - rewrite (sweep_entry_idle now k0 p0 it0 s) by done.
    apply IH; try done.
    + intros k' p' Hin'. apply Hin. by right.
    + exists k, p, it. split; [|done].
      apply elem_of_cons in Hkp as [[= -> ->]|Hkp]; [|done].
      exfalso. assert (it = it0) as -> by congruence.
      destruct Hidle; done.
  - unfold sweep_entry at 1, deref, the_table. unfold_monad. rewrite Hit0.
    rewrite bool_decide_eq_false_2 by done.
    rewrite bool_decide_eq_true_2 by done.
    rewrite Hauto.
    case_bool_decide as Hrec0.
    + by rewrite Hld.
    + destruct (deleteInternal_run k0 p0 it0 s Hl Hi0 Hit0)
        as (s' & -> & Ht & Hh & _).
      apply IH; try done.
      * by rewrite Ht.
      * intros k' q. rewrite Ht, Hh. simpl. intros Hq.
        apply lookup_delete_Some in Hq as [_ Hq]. by eapply Hwf.
      * by rewrite Ht.
      * by rewrite Ht.
      * intros k' p' Hin'. rewrite Ht. simpl.
        rewrite lookup_delete_ne; [apply Hin; by right|].
        intros <-. apply Hk0. apply list_elem_of_fmap. by exists (k0, p').
      * exists k, p, it. rewrite Hh. split; [|done].
        apply elem_of_cons in Hkp as [[= -> ->]|Hkp]; [|done].
        exfalso. assert (it = it0) as -> by congruence. done.
Qed.

(** X15: [SetDataLoader(nil)] arms a panic in the sweep.  It switches
    reloading on without a loader.  [Get] looks at the loader and fails a
    miss with [ErrKeyNotFound] as before, but [ExpirationCheck] looks at the
    switch: as soon as the table holds an entry that has expired and was
    accessed recently, the sweep calls the nil function and panics. *)
Theorem nil_loader_panics (order : list (K * loc)) s :
  lock (table s) = Unlocked →
  allocated s →
  order ≡ₚ map_to_list (items (table s)) →
  ∃ s1, SetDataLoader None s = Ok tt s1
    ∧ items (table s1) = items (table s)
    ∧ (∀ key, items (table s) !! key = None →
         Get key s1 = Ok (None, Some ErrKeyNotFound) s1)
    ∧ ((∃ k p it, items (table s) !! k = Some p ∧ heap s !! p = Some it
          ∧ lifeSpan it ≠ 0%Z ∧ expired (clock s) it
          ∧ recently_accessed (clock s) it) →
       ExpirationCheck order s1 = Fault NilFunc).
Proof.
  intros Hl Hwf Hperm.
  unfold SetDataLoader, Lock, Unlock, mutex_op, update_table. unfold_monad.
  rewrite Hl. simpl. eexists. split; [reflexivity|].
  set (s1 := set_table _ _).
  assert (table s1
          = set_loadData None (set_enableAutoLoad true (table s))) as Ht.
  { unfold s1. simpl. destruct (table s); simpl in *. by subst. }
  assert (heap s1 = heap s) as Hh by done.
  assert (clock s1 = clock s) as Hc by done.
  clearbody s1.
  split; [by rewrite Ht|]. split.
  { intros key Hk. apply Get_absent; by rewrite Ht. }
  intros (k & p & it & Hk & Hit & Hbad).
  destruct (ExpirationCheck_unfold order s1)
    as (s2 & Ht2 & Hh2 & _ & _ & _ & ->); [by rewrite Ht|].
  rewrite sweep_loop_nil_loader; try done.
  - by rewrite Ht2.
  - intros k' q. rewrite Ht2, Hh2, Ht, Hh. simpl. apply Hwf.
  - by rewrite Ht2, Ht.
  - by rewrite Ht2, Ht.
  - rewrite Hperm. apply NoDup_fst_map_to_list.
  - intros k' q Hin. rewrite Hperm in Hin. apply elem_of_map_to_list in Hin.
    by rewrite Ht2, Ht.
  - exists k, p, it. rewrite Hh2, Hh, Hc. split; [|done].
    rewrite Hperm. by apply elem_of_map_to_list.
Qed.

(** X16: a negative lifespan means expired at once.  The sweep skips only
    lifespan 0, so an entry whose lifespan is negative counts as expired
    from the moment it was created: the next [ExpirationCheck] takes it out
    of the table, deleting it when the table does not reload. *)
Theorem negative_lifespan_expires
    (order : list (K * loc)) (k : K) (p : loc) it s :
  lock (table s) = Unlocked →
  sweepable s →
  order ≡ₚ map_to_list (items (table s)) →
  items (table s) !! k = Some p →
  heap s !! p = Some it →
  (lifeSpan it < 0)%Z →
  (createdOn it ≤ clock s)%Z →
  ∃ s', ExpirationCheck order s = Ok tt s'
    ∧ items (table s') !! k ≠ Some p
    ∧ (enableAutoLoad (table s) = false → items (table s') !! k = None).
Proof.
  intros Hl Hsw Hperm Hk Hit Hneg Hcreated.
  assert (expired (clock s) it) as Hexp.
  { unfold expired, Time_Sub, minInt64, maxInt64.
    repeat case_match; lia. }
  destruct (ExpirationCheck_run order s Hl Hsw Hperm)
    as (s' & Hrun & _ & _ & _ & _ & _ & Hs).
  exists s'. split; [done|].
  destruct (Hs k p it Hk Hit) as [([Hz|Hne] & _)|[(_ & _ & (Hi & _) & _)
    |(_ & _ & Hauto & _ & v & span & _ & Hre)]].
  - lia.
  - done.
  - rewrite Hi. done.
  - destruct Hre as (p' & _ & _ & _ & Hi & Hlen & _).
    apply lookup_lt_Some in Hit. split.
    + rewrite Hi. intros [= ->]. lia.
    + congruence.
Qed.

(** ** What the callbacks find *)

Lemma sweep_entry_view (now : Time) (k : K) (p : loc) it s :
  lock (table s) = WLocked →
  sweepable s →
  items (table s) !! k = Some p →
  heap s !! p = Some it →
  ∃ s' tr, sweep_entry now k p s = Ok tt s'
    ∧ trace s' = trace s ++ tr ∧ Forall callback_view tr.
Proof.
  intros Hl [Hwf Hld] Hk Hit.
  assert (∀ s0, table s0 = table s → heap s0 = heap s → trace s0 = trace s →
    ∃ s' tr, deleteInternal k s0 = Ok (Some p, None) s'
      ∧ trace s' = trace s ++ tr ∧ Forall callback_view tr) as Hdrop.
  { intros s0 Et Eh Etr.
    destruct (deleteInternal_run k p it s0)
      as (s' & -> & _ & _ & _ & _ & Htr); try congruence.
    eexists _, _. split; [done|]. rewrite Htr, Etr, Et.
    split; [done|].
    apply Forall_app. split; apply Forall_fmap, Forall_forall;
      intros f _; simpl; (split; [done|]); by eexists. }
  unfold sweep_entry, deref. unfold_monad. rewrite Hit.
  case_bool_decide as Hz.
  { exists s, []. by rewrite app_nil_r. }
  case_bool_decide as Hexp; last first.
  { exists s, []. by rewrite app_nil_r. }
  unfold the_table. simpl.
  destruct (enableAutoLoad (table s)) eqn:Hauto; last first.
  { destruct (Hdrop s) as (s' & tr & -> & HP); try done. by exists s', tr. }
  case_bool_decide as Hrec; last first.
  { destruct (Hdrop s) as (s' & tr & -> & HP); try done. by exists s', tr. }
  destruct (Hld eq_refl) as [f Hf]. rewrite Hf.
  unfold call_loader.
  destruct (f k (env s)) as [[[v span] err] w'] eqn:Hcall.
  destruct err as [e|].
  { destruct (Hdrop (set_env w' s)) as (s' & tr & -> & HP); try done.
    by exists s', tr. }
  unfold NewCacheItem, time_Now. unfold_monad. simpl.
  match goal with |- context [addInternal ?q ?s1] =>
    destruct (addInternal_run q
                (Build_CacheItem k v span (clock s) (clock s) 0 []) s1)
      as (s2 & -> & Ht & _ & _ & _ & Htr)
  end.
  { simpl. rewrite lookup_app_r by lia. by rewrite Nat.sub_diag. }
  simpl in *. eexists _, _. split; [done|]. split; [exact Htr|].
  apply Forall_fmap, Forall_forall. intros g _. simpl. rewrite Ht. simpl.
  split; [done|]. exists k. apply lookup_insert_eq.
Qed.

Lemma sweep_loop_view (now : Time) (order : list (K * loc)) s :
  lock (table s) = WLocked →
  sweepable s →
  NoDup order.*1 →
  (∀ k p, (k, p) ∈ order → items (table s) !! k = Some p) →
  ∃ s' tr, forM_ order (λ '(key, item), sweep_entry now key item) s = Ok tt s'
    ∧ lock (table s') = WLocked
    ∧ trace s' = trace s ++ tr ∧ Forall callback_view tr.
Proof.
  revert s. induction order as [|[k p] order IH]; intros s Hl Hsw Hnd Hin.
  { exists s, []. by rewrite app_nil_r. }
  simpl in Hnd. apply NoDup_cons in Hnd as [Hk Hnd].
  assert (items (table s) !! k = Some p) as Hkp by (apply Hin; left).
  destruct (proj1 Hsw _ _ Hkp) as [it Hit].
  destruct (sweep_entry_run now k p it s)
    as (s1 & Hrun & Ht1 & _ & _ & _ & Hfr1 & Hsw1 & _); try done.
  destruct (sweep_entry_view now k p it s) as (s1' & tr1 & Hrun' & Htr1 & Hv1);
    try done.
  assert (s1' = s1) as -> by congruence.
  destruct (IH s1) as (s' & tr & Hrun2 & Hl' & Htr & Hv); try done.
  { by rewrite Ht1. }
  { intros k' p' Hk'. rewrite Hfr1.
    - apply Hin. by right.
    - intros ->. apply Hk. apply list_elem_of_fmap. by exists (k, p'). }
  exists s', (tr1 ++ tr). split.
  { simpl. unfold_monad. by rewrite Hrun. }
  split; [done|]. split; [by rewrite Htr, Htr1, app_assoc|].
  by apply Forall_app.
Qed.

(** X17: what a callback finds when it is entered.  In every [Set],
    [Delete], [Get] and [ExpirationCheck] started on a table at rest, an
    added-item callback is entered with the write lock held and its item
    already stored, whereas the about-to-delete and about-to-expire
    callbacks are entered with the lock released and the entry still in
    the table; the sweep hands the lock back for the deletion callbacks of
    each entry and takes it again. *)
Theorem callbacks_find
    (key : K) (ls : Duration) (d : option V) s :
  at_rest s →
  (∃ p s', Set_ key ls d s = Ok p s'
     ∧ Forall callback_view (drop (length (trace s)) (trace s')))
  ∧ (∃ r s', Delete key s = Ok r s'
       ∧ Forall callback_view (drop (length (trace s)) (trace s')))
  ∧ (∃ r s', Get key s = Ok r s'
       ∧ Forall callback_view (drop (length (trace s)) (trace s')))
  ∧ (∀ order, order ≡ₚ map_to_list (items (table s)) →
       ∃ s', ExpirationCheck order s = Ok tt s'
         ∧ Forall callback_view (drop (length (trace s)) (trace s'))).
Proof.
  intros (Hl & Hsw). pose proof Hsw as (Hwf & Hld).
  assert (∀ (p : loc) (k : K) s',
    table s' = set_items (<[k := p]> (items (table s))) (table s) →
    Forall (@callback_view K _ _ V W ItemCb KeyCb)
      (map (λ f, CallAdded f p (set_lock WLocked (table s')))
         (addedItem (table s)))) as Hadded.
  { intros p k s' Ht. apply Forall_fmap, Forall_forall. intros f _. simpl.
    split; [done|]. exists k. rewrite Ht. simpl. apply lookup_insert_eq. }
  split.
  { destruct (Set_run key ls d s Hl) as (s' & Hrun & Ht & _ & _ & _ & Htr).
    exists (length (heap s)), s'. split; [done|].
    rewrite Htr, drop_app_length. by eapply Hadded. }
  split.
  { destruct (items (table s) !! key) as [r|] eqn:Hk.
    - destruct (Hwf _ _ Hk) as [it Hit].
      destruct (Delete_run key r it s Hl Hk Hit)
        as (s' & Hrun & _ & _ & _ & _ & Htr).
      exists (Some r, None), s'. split; [done|].
      rewrite Htr, drop_app_length.
      apply Forall_app. split; apply Forall_fmap, Forall_forall;
        intros f _; simpl; (split; [done|]); by eexists.
    - exists (None, Some ErrKeyNotFound), s.
      split; [by apply Delete_absent|]. by rewrite drop_all. }
  split.
  { destruct (items (table s) !! key) as [r|] eqn:Hk.
    - destruct (Hwf _ _ Hk) as [it Hit].
      destruct (Get_found key r it s Hl Hk Hit) as (s' & Hrun & _ & _ & Htr & _).
      exists (Some r, None), s'. split; [done|]. by rewrite Htr, drop_all.
    - destruct (loadData (table s)) as [f|] eqn:Hf.
      + destruct (f key (env s)) as [[[v span] err] w'] eqn:Hcall.
        destruct err as [e|]; [destruct (enableNullData (table s)) eqn:Hn|].
        * destruct (Get_load_admit key f v span (Some e) w' s)
            as (s' & Hrun & Ht & _ & _ & _ & Htr); auto.
          eexists _, s'. split; [done|].
          rewrite Htr, drop_app_length. by eapply Hadded.
        * destruct (Get_load_error key f v span e w' s)
            as (s' & Hrun & _ & _ & Htr & _); auto.
          eexists _, s'. split; [done|]. by rewrite Htr, drop_all.
        * destruct (Get_load_admit key f v span None w' s)
            as (s' & Hrun & Ht & _ & _ & _ & Htr); auto.
          eexists _, s'. split; [done|].
          rewrite Htr, drop_app_length. by eapply Hadded.
      + exists (None, Some ErrKeyNotFound), s.
        split; [by apply Get_absent|]. by rewrite drop_all. }
  intros order Hperm.
  destruct (ExpirationCheck_unfold order s Hl)
    as (s1 & Ht & Hh & _ & _ & Htr & ->).
  destruct (sweep_loop_view (clock s) order s1)
    as (s' & tr & -> & Hl' & Htr' & Hv).
  { by rewrite Ht. }
  { split.
    - intros k p. rewrite Ht, Hh. simpl. apply Hwf.
    - by rewrite Ht. }
  { rewrite Hperm. apply NoDup_fst_map_to_list. }
  { intros k p Hin. rewrite Hperm in Hin. apply elem_of_map_to_list in Hin.
    by rewrite Ht. }
  unfold Unlock, mutex_op. rewrite Hl'. simpl.
  eexists. split; [reflexivity|]. simpl.
  by rewrite Htr', Htr, drop_app_length.
Qed.

(** ** The size of a ranking *)

(** X18: [MostAccessed] returns exactly [count] entries, or all of them
    when the table has fewer, and nothing when [count] is zero or negative;
    every address it returns is the entry of a key of the table. *)
Theorem MostAccessed_size
    (sort_Sort : list CacheItemPair → list CacheItemPair)
    (order : list (K * loc)) (count : Z) s :
  sorts sort_Sort →
  lock (table s) = Unlocked →
  allocated s →
  order ≡ₚ map_to_list (items (table s)) →
  ∃ r, MostAccessed sort_Sort order count s = Ok r s
    ∧ length r = Z.to_nat count `min` size (items (table s))
    ∧ ∀ p, p ∈ r → ∃ k, items (table s) !! k = Some p.
Proof.
  intros Hsort Hl Hwf Hperm.
  eexists. split.
  { apply MostAccessed_run; [done|].
    intros k p Hin. rewrite Hperm in Hin.
    apply elem_of_map_to_list in Hin. by eapply Hwf. }
  destruct (sorted_pairs sort_Sort order s Hsort Hperm) as (_ & Hl' & Hres).
  set (l := sort_Sort (pair_at s <$> order)) in *.
  assert (Some <$> first_items (table s) count 0 l
          = (λ v, items (table s) !! Key v) <$> take (Z.to_nat count) l) as Hr.
  { rewrite first_items_resolved.
    - by replace (count - 0)%Z with count by lia.
    - intros v Hv. destruct (Hres v Hv) as (p & Hp & _). by eexists. }
  split.
  - apply (f_equal length) in Hr.
    rewrite !length_fmap, length_take in Hr. rewrite Hr.
    f_equal. rewrite Hl', !length_fmap. apply length_map_to_list.
  - intros p Hp.
    assert (Some p ∈ Some <$> first_items (table s) count 0 l) as Hin.
    { apply list_elem_of_fmap. by exists p. }
    rewrite Hr in Hin. apply list_elem_of_fmap in Hin as (v & Hv & _).
    by exists (Key v).
Qed.

(** ** Registries that were emptied *)

Lemma RemoveAddedItemCallbacks_run s :
  lock (table s) = Unlocked →
  ∃ s', RemoveAddedItemCallbacks s = Ok tt s'
    ∧ table s' = set_addedItem [] (table s)
    ∧ heap s' = heap s ∧ trace s' = trace s.
Proof.
  intros Hl. unfold RemoveAddedItemCallbacks, Lock, Unlock, mutex_op,
    update_table.
  unfold_monad. rewrite Hl. simpl. eexists. split; [reflexivity|]. simpl.
  repeat split. destruct (table s); simpl in *. by subst.
Qed.

Lemma RemoveAboutToDeleteItemCallback_run s :
  lock (table s) = Unlocked →
  ∃ s', RemoveAboutToDeleteItemCallback s = Ok tt s'
    ∧ table s' = set_aboutToDeleteItem [] (table s)
    ∧ heap s' = heap s ∧ trace s' = trace s.
Proof.
  intros Hl. unfold RemoveAboutToDeleteItemCallback, Lock, Unlock, mutex_op,
    update_table.
  unfold_monad. rewrite Hl. simpl. eexists. split; [reflexivity|]. simpl.
  repeat split. destruct (table s); simpl in *. by subst.
Qed.

(** X19: callbacks that were removed are not called.  After
    [RemoveAddedItemCallbacks], a [Set] enters no callback at all; after
    [RemoveAboutToDeleteItemCallback], a [Delete] enters only the
    about-to-expire callbacks that the entry itself carries.  Neither
    removal touches the items or the other registry. *)
Theorem removed_callbacks_are_silent
    (key : K) (ls : Duration) (d : option V) (r : loc) it s :
  lock (table s) = Unlocked →
  items (table s) !! key = Some r →
  heap s !! r = Some it →
  (∃ s1 p s2, RemoveAddedItemCallbacks s = Ok tt s1
     ∧ items (table s1) = items (table s)
     ∧ aboutToDeleteItem (table s1) = aboutToDeleteItem (table s)
     ∧ Set_ key ls d s1 = Ok p s2
     ∧ trace s2 = trace s)
  ∧ (∃ s1 s2, RemoveAboutToDeleteItemCallback s = Ok tt s1
       ∧ items (table s1) = items (table s)
       ∧ addedItem (table s1) = addedItem (table s)
       ∧ Delete key s1 = Ok (Some r, None) s2
       ∧ trace s2 = trace s
           ++ map (λ f, CallAboutToExpire f key (table s1))
                (aboutToExpire it)).
Proof.
  intros Hl Hk Hit. split.
  - destruct (RemoveAddedItemCallbacks_run s Hl) as (s1 & Hrun & Ht & Hh & Htr).
    destruct (Set_run key ls d s1) as (s2 & Hrun2 & _ & _ & _ & _ & Htr2).
    { by rewrite Ht. }
    eexists s1, _, s2. split; [done|]. rewrite Ht. simpl.
    split; [done|]. split; [done|]. split; [done|].
    rewrite Htr2, Ht, Htr. simpl. by rewrite app_nil_r.
  - destruct (RemoveAboutToDeleteItemCallback_run s Hl)
      as (s1 & Hrun & Ht & Hh & Htr).
    destruct (Delete_run key r it s1) as (s2 & Hrun2 & _ & _ & _ & _ & Htr2).
    { by rewrite Ht. }
    { by rewrite Ht. }
    { by rewrite Hh. }
    exists s1, s2. split; [done|]. rewrite Htr2, Htr. rewrite Ht at 1 2 3.
    done.
Qed.

(** ** The log *)

Lemma logged_written (m : LogMsg) s :
  logged (written m s)
  = logged s ++ match logger (table s) with Some _ => [m] | None => [] end.
Proof.
  unfold written. destruct (logger (table s)); simpl; [done|].
  by rewrite app_nil_r.
Qed.

(** X20: what reaches the log.  With a logger set, [Set] writes one line
    with the key, the lifespan and the name of the table, [Delete] of a
    present key one line with the key, the creation time and the access
    count of the entry, and [Flush] one line with the name; without a
    logger none of them writes anything. *)
Theorem log_lines (key : K) (ls : Duration) (d : option V) (r : loc) it s :
  lock (table s) = Unlocked →
  items (table s) !! key = Some r →
  heap s !! r = Some it →
  (∃ p s', Set_ key ls d s = Ok p s'
     ∧ lines_since s s'
       = match logger (table s) with
         | Some _ => [LogAdding key ls (name (table s))]
         | None => []
         end)
  ∧ (∃ s', Delete key s = Ok (Some r, None) s'
       ∧ lines_since s s'
         = match logger (table s) with
           | Some _ => [LogDeleting key (createdOn it) (accessCount it)
                          (name (table s))]
           | None => []
           end)
  ∧ (∃ s', Flush s = Ok tt s'
       ∧ lines_since s s'
         = match logger (table s) with
           | Some _ => [LogFlushing (name (table s))]
           | None => []
           end).
Proof.
  intros Hl Hk Hit. split; [|split].
  - unfold Set_, NewCacheItem, time_Now, Lock, Unlock, mutex_op, addInternal,
      deref, the_table, update_table, log.
    unfold_monad. simpl. rewrite Hl. simpl.
    rewrite lookup_app_r, Nat.sub_diag by lia. simpl.
    rewrite forM_call. simpl. rewrite table_written. simpl.
    eexists _, _. split; [reflexivity|].
    unfold lines_since. simpl. rewrite logged_written. simpl.
    by rewrite drop_app_length.
  - unfold Delete, deleteInternal, Lock, Unlock, mutex_op, deref, the_table,
      update_table, log.
    unfold_monad. rewrite Hl. simpl. rewrite Hk. simpl.
    rewrite forM_call. simpl. rewrite Hit. rewrite forM_call. simpl.
    rewrite Hit. simpl. rewrite table_written. simpl.
    eexists. split; [reflexivity|].
    unfold lines_since. simpl. rewrite logged_written. simpl.
    by rewrite drop_app_length.
  - unfold Flush, Lock, Unlock, mutex_op, the_table, update_table, log.
    unfold_monad. rewrite Hl. simpl. rewrite table_written. simpl.
    eexists. split; [reflexivity|].
    unfold lines_since. simpl. rewrite logged_written. simpl.
    by rewrite drop_app_length.
Qed.
End keeping.

(** * The sort interface of the ranking *)

Section pair_list.
Context {K : Type}.

Local Abbreviation CacheItemPair := (@CacheItemPair K).
Implicit Types (a b c : CacheItemPair) (p : list CacheItemPair).

(** X21: [CacheItemPairList] is fit for [sort.Sort].  [Less] is a strict
    weak order (never true of an element and itself, never true both ways,
    transitive, and with a transitive "neither is less"), and [Swap] of two
    indices in range exchanges the two elements, leaves the others and the
    length alone, and is undone by the same [Swap]; an index out of range
    makes it fail. *)
Theorem pair_list_sorts :
  (∀ a, Less a a = false)
  ∧ (∀ a b, Less a b = true → Less b a = false)
  ∧ (∀ a b c, Less a b = true → Less b c = true → Less a c = true)
  ∧ (∀ a b c, Less a b = false → Less b a = false →
              Less b c = false → Less c b = false →
              Less a c = false ∧ Less c a = false)
  ∧ (∀ p i j, i < Len p → j < Len p →
       ∃ p', Swap p i j = Some p'
         ∧ Len p' = Len p
         ∧ p' !! i = p !! j ∧ p' !! j = p !! i
         ∧ (∀ n, n ≠ i → n ≠ j → p' !! n = p !! n)
         ∧ Swap p' i j = Some p)
  ∧ (∀ p i j, Len p ≤ i ∨ Len p ≤ j → Swap p i j = None).
Proof.
  unfold Less, Len.
  split. { intros a. apply bool_decide_eq_false. lia. }
  split. { intros a b Hab. apply bool_decide_eq_true in Hab.
           apply bool_decide_eq_false. lia. }
  split. { intros a b c Hab Hbc. apply bool_decide_eq_true in Hab, Hbc.
           apply bool_decide_eq_true. lia. }
  split. { intros a b c H1 H2 H3 H4.
           apply bool_decide_eq_false in H1, H2, H3, H4.
           split; apply bool_decide_eq_false; lia. }
  split.
  - intros p i j Hi Hj.
    destruct (lookup_lt_is_Some_2 p i Hi) as [pi Hpi].
    destruct (lookup_lt_is_Some_2 p j Hj) as [pj Hpj].
    unfold Swap. rewrite Hpi, Hpj.
    eexists. split; [reflexivity|].
    assert (∀ (q : list CacheItemPair) x y n, length q = length p →
              <[j:=x]> (<[i:=y]> q) !! n
              = if decide (n = j) then Some x
                else if decide (n = i) then Some y else q !! n) as Hlook.
    { intros q x y n Hq. destruct (decide (n = j)) as [->|Hnj].
      - rewrite list_lookup_insert_eq; [done|]. rewrite length_insert. lia.
      - rewrite list_lookup_insert_ne by done.
        destruct (decide (n = i)) as [->|Hni].
        + rewrite list_lookup_insert_eq; [done|]. lia.
        + by rewrite list_lookup_insert_ne. }
    split; [by rewrite !length_insert|].
    split. { rewrite Hlook by done. repeat case_decide; congruence. }
    split. { rewrite Hlook by done. repeat case_decide; congruence. }
    split. { intros n Hni Hnj. rewrite Hlook by done.
             repeat case_decide; congruence. }
    rewrite !Hlook by done.
    assert (∀ u v, (if decide (j = j) then Some u else v) = Some u) as ->.
    { intros u v. by rewrite decide_True. }
    assert ((if decide (i = j) then Some pi
             else if decide (i = i) then Some pj else p !! i)
            = Some (if decide (i = j) then pi else pj)) as ->.
    { repeat case_decide; congruence. }
    f_equal. apply list_eq. intros n.
    rewrite Hlook by (by rewrite !length_insert).
    rewrite Hlook by done.
    repeat case_decide; congruence.
  - intros p i j Hout. unfold Swap.
    destruct (p !! j) eqn:Hj, (p !! i) eqn:Hi; try done.
    apply lookup_lt_Some in Hj, Hi. lia.
Qed.
End pair_list.

(** * The further theorems at work on the tables of the tests *)

(** [Add] on the cached ["testkey"] and on a free key. *)
Lemma Add_spec_witness :
  lock (table callbacks_state) = Unlocked
  ∧ Add "testkey" 0%Z (Some "other") callbacks_state = Ok false callbacks_state
  ∧ ∃ s', Add "free" 0%Z (Some "v") callbacks_state = Ok true s'
      ∧ table s' = set_items (<["free" := 1]> (items callbacks_table))
                     callbacks_table
      ∧ heap s' = heap callbacks_state
                    ++ [Build_CacheItem "free" (Some "v") 0 0 0 0 []]
      ∧ env s' = 0
      ∧ trace s' = map (λ f, CallAdded f 1 (set_lock WLocked (table s')))
                     ["added1"; "added2"].
Proof.
  split; [reflexivity|]. split.
  - exact (Add_spec "testkey" 0%Z (Some "other") callbacks_state eq_refl).
  - exact (Add_spec "free" 0%Z (Some "v") callbacks_state eq_refl).
Defined.

(** [Get] of the cached ["testkey"]. *)
Lemma Get_hit_witness :
  lock (table callbacks_state) = Unlocked
  ∧ items (table callbacks_state) !! "testkey" = Some 0
  ∧ ∃ s', Get "testkey" callbacks_state = Ok (Some 0, None) s'
      ∧ table s' = callbacks_table ∧ env s' = 0 ∧ trace s' = []
      ∧ heap s'
        = [Build_CacheItem "testkey" (Some "testvalue") (500 * Millisecond)
             0 0 1 ["expiring1"; "expiring2"]].
Proof.
  split; [reflexivity|]. split; [reflexivity|].
  exact (Get_hit "testkey" 0 _ callbacks_state eq_refl eq_refl eq_refl).
Defined.

(** [Get] of a key that is not cached, with no loader. *)
Lemma Get_miss_witness :
  lock (table callbacks_state) = Unlocked
  ∧ items (table callbacks_state) !! "nokey" = None
  ∧ loadData (table callbacks_state) = None
  ∧ Get "nokey" callbacks_state
    = Ok (None, Some ErrKeyNotFound) callbacks_state.
Proof.
  split; [reflexivity|]. split; [reflexivity|]. split; [reflexivity|].
  exact (Get_miss "nokey" callbacks_state eq_refl eq_refl eq_refl).
Defined.

(** The first load of [TestDataLoader], and the read that follows it. *)
Lemma Get_caches_load_witness :
  lock (table (empty_state (loading_table test_loader true))) = Unlocked
  ∧ test_loader "k" 0 = (Some "1", (20 * Millisecond)%Z, None, 1)
  ∧ ∃ p s1 s2,
      Get "k" (empty_state (loading_table test_loader true))
      = Ok (Some p, None) s1
      ∧ env s1 = 1
      ∧ Get "k" s1 = Ok (Some p, None) s2
      ∧ env s2 = 1
      ∧ table s2 = table s1
      ∧ heap s2 !! p
        = Some (Build_CacheItem "k" (Some "1") (20 * Millisecond) 0 0 1 []).
Proof.
  split; [reflexivity|]. split; [reflexivity|].
  exact (Get_caches_load "k" test_loader (Some "1") (20 * Millisecond)%Z None 1
           (empty_state (loading_table test_loader true))
           eq_refl eq_refl eq_refl eq_refl (or_introl eq_refl)).
Defined.

(** [Set] and then [Get], as in [TestNew]. *)
Lemma Set_then_Get_witness :
  lock (table callbacks_state) = Unlocked
  ∧ ∃ p s1 s2 it,
      Set_ "k2" Second (Some "v") callbacks_state = Ok p s1
      ∧ Exists "k2" s1 = Ok true s1
      ∧ Get "k2" s1 = Ok (Some p, None) s2
      ∧ heap s2 !! p = Some it
      ∧ data it = Some "v" ∧ lifeSpan it = Second ∧ accessCount it = 1%Z.
Proof.
  split; [reflexivity|].
  exact (Set_then_Get "k2" Second (Some "v") callbacks_state eq_refl).
Defined.

(** [Delete] and what follows it, as in [TestDelete]. *)
Lemma Delete_then_missing_witness :
  lock (table callbacks_state) = Unlocked
  ∧ items (table callbacks_state) !! "testkey" = Some 0
  ∧ ∃ s', Delete "testkey" callbacks_state = Ok (Some 0, None) s'
      ∧ Exists "testkey" s' = Ok false s'
      ∧ Delete "testkey" s' = Ok (None, Some ErrKeyNotFound) s'
      ∧ (loadData (table callbacks_state) = None →
         Get "testkey" s' = Ok (None, Some ErrKeyNotFound) s')
      ∧ ∀ k', k' ≠ "testkey" →
          Exists k' s'
          = Ok (bool_decide (is_Some (items (table callbacks_state) !! k'))) s'.
Proof.
  split; [reflexivity|]. split; [reflexivity|].
  exact (Delete_then_missing "testkey" 0 _ callbacks_state
           eq_refl eq_refl eq_refl).
Defined.

(** [Flush], as in [TestFlush]. *)
Lemma Flush_spec_witness :
  lock (table callbacks_state) = Unlocked
  ∧ ∃ s', Flush callbacks_state = Ok tt s'
      ∧ table s' = set_cleanupInterval 0 (set_items ∅ callbacks_table)
      ∧ heap s' = heap callbacks_state ∧ env s' = 0 ∧ trace s' = []
      ∧ Count s' = Ok 0 s'
      ∧ ∀ k, Exists k s' = Ok false s'.
Proof.
  split; [reflexivity|].
  exact (Flush_spec callbacks_state eq_refl).
Defined.

(** Counting around a [Set] of a new key and a [Delete]. *)
Lemma Count_tracks_witness :
  lock (table callbacks_state) = Unlocked
  ∧ allocated callbacks_state
  ∧ Count callbacks_state = Ok 1 callbacks_state
  ∧ (∃ p s', Set_ "k2" 0%Z (Some "v") callbacks_state = Ok p s'
       ∧ Count s' = Ok 2 s')
  ∧ (∃ r s', Delete "testkey" callbacks_state = Ok r s'
       ∧ Count s' = Ok 0 s').
Proof.
  split; [reflexivity|]. split; [exact callbacks_state_allocated|].
  pose proof (Count_tracks "k2" 0%Z (Some "v") callbacks_state eq_refl
                callbacks_state_allocated) as (H1 & H2 & _).
  pose proof (Count_tracks "testkey" 0%Z (Some "v") callbacks_state eq_refl
                callbacks_state_allocated) as (_ & _ & H3).
  split; [exact H1|]. split; [exact H2|].
  apply H3. by eexists.
Defined.

(** The table as an added-item callback finds it: every call into it
    waits for ever. *)
Lemma locked_table_blocks_witness :
  lock (table busy_state) ≠ Unlocked
  ∧ lock (table busy_state) = WLocked
  ∧ Set_ "k" 0%Z (Some "v") busy_state = Fault Deadlock
  ∧ Delete "k" busy_state = Fault Deadlock
  ∧ Get "k" busy_state = Fault Deadlock
  ∧ Exists "k" busy_state = Fault Deadlock.
Proof.
  assert (lock (table busy_state) ≠ Unlocked) as Hbusy by discriminate.
  split; [exact Hbusy|]. split; [reflexivity|].
  pose proof (locked_table_blocks "k" 0%Z (Some "v") "cb" [] busy_state Hbusy)
    as (H1 & _ & H3 & _ & _ & _ & _ & _ & _ & Hread).
  destruct (Hread eq_refl) as (H10 & H11 & _).
  split; [exact H1|]. split; [exact H3|]. split; [exact H10|exact H11].
Defined.

(** Counting the four entries of [sweep_state] with [Foreach], and trying
    to delete them. *)
Lemma Foreach_spec_witness :
  lock (table sweep_state) = Unlocked
  ∧ (∃ s', Foreach (map_to_list (items sweep_table))
             (looking counting_visitor) sweep_state = Ok tt s'
       ∧ table s' = sweep_table ∧ heap s' = sweep_heap ∧ trace s' = []
       ∧ env s' = 4)
  ∧ Foreach (map_to_list (items sweep_table)) (λ k _, Delete k;; mret tt)
      sweep_state = Fault Deadlock.
Proof.
  split; [reflexivity|].
  destruct (Foreach_spec (map_to_list (items sweep_table)) counting_visitor
              sweep_state eq_refl (reflexivity _))
    as [(s' & Hrun & Ht & Hh & Htr & He & _) Hwrite].
  split.
  - exists s'. split; [exact Hrun|]. split; [exact Ht|].
    split; [exact Hh|]. split; [exact Htr|].
    rewrite He. vm_compute. reflexivity.
  - apply Hwrite. intros Hempty.
    pose proof (f_equal (λ m : gmap string loc, m !! "warm") Hempty) as Hw.
    vm_compute in Hw. discriminate Hw.
Defined.

(** Asking for ["myCache"] three times. *)
Lemma registry_lookup_is_stable_witness :
  mutex empty_registry = Unlocked
  ∧ cache empty_registry !! "myCache" = None
  ∧ ∃ t g', New "myCache" (5 * Second) empty_registry = Ok t g'
      ∧ New "myCache" Millisecond g' = Ok t g'
      ∧ Cache "myCache" g' = Ok t g'
      ∧ cleanupInterval <$> tables g' !! t = Some (5 * Second)%Z.
Proof.
  split; [reflexivity|]. split; [reflexivity|].
  exact (registry_lookup_is_stable "myCache" (5 * Second) Millisecond
           empty_registry eq_refl eq_refl).
Defined.

Lemma empty_registry_sound (n : string) (c : nat) :
  cache empty_registry !! n = Some c → is_Some (tables empty_registry !! c).
Proof. simpl. by rewrite lookup_empty. Qed.

(** The first table of a registry, made by [New] or by [Cache]. *)
Lemma registry_fresh_table_witness :
  mutex empty_registry = Unlocked
  ∧ (∀ n c, cache empty_registry !! n = Some c →
            is_Some (tables empty_registry !! c))
  ∧ (∃ t g', New "a" Second empty_registry = Ok t g'
       ∧ tables g' !! t = Some (new_table "a" Second))
  ∧ (∃ t g', Cache "a" empty_registry = Ok t g'
       ∧ tables g' !! t = Some (new_table "a" 0)).
Proof.
  split; [reflexivity|]. split; [exact empty_registry_sound|].
  destruct (registry_fresh_table "a" Second empty_registry eq_refl
              empty_registry_sound eq_refl)
    as [(t & g' & Hn & Ht & _) (t' & g'' & Hc & Ht' & _)].
  split; [by exists t, g'|by exists t', g''].
Defined.

Lemma nil_loader_state_allocated : allocated nil_loader_state.
Proof.
  change (map_Forall (λ _ p, is_Some (heap nil_loader_state !! p))
            (items (table nil_loader_state))).
  apply (bool_decide_unpack _). vm_compute. exact I.
Qed.

Lemma logged_state_sweepable : sweepable logged_state.
Proof.
  split.
  - change (map_Forall (λ _ p, is_Some (heap logged_state !! p))
              (items (table logged_state))).
    apply (bool_decide_unpack _). vm_compute. exact I.
  - discriminate.
Qed.

Lemma callbacks_state_young (k : string) (p : loc) :
  items (table callbacks_state) !! k = Some p →
  ∃ it, heap callbacks_state !! p = Some it
        ∧ (lifeSpan it = 0%Z ∨ ¬ expired (clock callbacks_state) it).
Proof.
  intros Hk.
  change (({["testkey" := 0]} : gmap string loc) !! k = Some p) in Hk.
  apply lookup_singleton_Some in Hk as [<- <-].
  eexists. split; [reflexivity|]. right. vm_compute. intros Hle. by apply Hle.
Qed.

(** The operations on [sweep_state], each leaving a table at rest. *)
Lemma operations_keep_rest_witness :
  at_rest sweep_state
  ∧ (∃ p s', Set_ "k" Second (Some "v") sweep_state = Ok p s' ∧ at_rest s')
  ∧ (∃ r s', Get "warm" sweep_state = Ok r s' ∧ at_rest s')
  ∧ (∃ s', ExpirationCheck (map_to_list (items sweep_table)) sweep_state
           = Ok tt s' ∧ at_rest s').
Proof.
  assert (at_rest sweep_state) as Hrest.
  { split; [reflexivity|exact sweep_state_sweepable]. }
  split; [exact Hrest|].
  pose proof (operations_keep_rest "k" Second (Some "v") sweep_state Hrest)
    as (HSet & _).
  pose proof (operations_keep_rest "warm" Second (Some "v") sweep_state Hrest)
    as (_ & _ & _ & HGet & _ & HSweep).
  split; [exact HSet|]. split; [exact HGet|].
  exact (HSweep _ (reflexivity _)).
Defined.

(** A sweep over the table of [TestCallbackQueue] before anything has
    expired. *)
Lemma ExpirationCheck_idle_witness :
  lock (table callbacks_state) = Unlocked
  ∧ ∃ s', ExpirationCheck (map_to_list (items callbacks_table))
            callbacks_state = Ok tt s'
      ∧ table s' = callbacks_table ∧ heap s' = heap callbacks_state
      ∧ env s' = 0 ∧ trace s' = [].
Proof.
  split; [reflexivity|].
  exact (ExpirationCheck_idle (map_to_list (items callbacks_table))
           callbacks_state eq_refl (reflexivity _) callbacks_state_young).
Defined.

(** The sweep of a table armed with a nil loader. *)
Lemma nil_loader_panics_witness :
  lock (table nil_loader_state) = Unlocked
  ∧ allocated nil_loader_state
  ∧ ∃ s1, SetDataLoader None nil_loader_state = Ok tt s1
      ∧ Get "cold" s1 = Ok (None, Some ErrKeyNotFound) s1
      ∧ ExpirationCheck (map_to_list (items (table nil_loader_state))) s1
        = Fault NilFunc.
Proof.
  split; [reflexivity|]. split; [exact nil_loader_state_allocated|].
  destruct (nil_loader_panics (map_to_list (items (table nil_loader_state)))
              nil_loader_state eq_refl nil_loader_state_allocated
              (reflexivity _))
    as (s1 & Hrun & _ & HGet & Hsweep).
  exists s1. split; [exact Hrun|]. split; [exact (HGet "cold" eq_refl)|].
  apply Hsweep. exists "warm", 0, warm_item.
  split; [reflexivity|]. split; [reflexivity|].
  split; [discriminate|].
  split; vm_compute; discriminate.
Defined.

(** The entry of [logged_state], whose lifespan is -1ns. *)
Lemma negative_lifespan_expires_witness :
  lock (table logged_state) = Unlocked
  ∧ sweepable logged_state
  ∧ items (table logged_state) !! "odd" = Some 0
  ∧ ∃ s', ExpirationCheck (map_to_list (items (table logged_state)))
            logged_state = Ok tt s'
      ∧ items (table s') !! "odd" ≠ Some 0
      ∧ (enableAutoLoad (table logged_state) = false →
         items (table s') !! "odd" = None).
Proof.
  split; [reflexivity|]. split; [exact logged_state_sweepable|].
  split; [reflexivity|].
  refine (negative_lifespan_expires
            (map_to_list (items (table logged_state))) "odd" 0 _ logged_state
            eq_refl logged_state_sweepable (reflexivity _) eq_refl eq_refl
            _ _); vm_compute; [reflexivity|discriminate].
Defined.

(** What the callbacks of [sweep_state] find. *)
Lemma callbacks_find_witness :
  at_rest sweep_state
  ∧ (∃ p s', Set_ "k" Second (Some "v") sweep_state = Ok p s'
       ∧ Forall callback_view (drop 0 (trace s')))
  ∧ (∃ r s', Delete "cold" sweep_state = Ok r s'
       ∧ Forall callback_view (drop 0 (trace s')))
  ∧ (∃ s', ExpirationCheck (map_to_list (items sweep_table)) sweep_state
           = Ok tt s'
       ∧ Forall callback_view (drop 0 (trace s'))).
Proof.
  assert (at_rest sweep_state) as Hrest.
  { split; [reflexivity|exact sweep_state_sweepable]. }
  split; [exact Hrest|].
  pose proof (callbacks_find "k" Second (Some "v") sweep_state Hrest)
    as (HSet & _).
  pose proof (callbacks_find "cold" Second (Some "v") sweep_state Hrest)
    as (_ & HDel & _ & HSweep).
  split; [exact HSet|]. split; [exact HDel|].
  exact (HSweep _ (reflexivity _)).
Defined.

(** Ninety-nine and two hundred of the hundred entries of
    [TestAccessCount]. *)
Lemma MostAccessed_size_witness :
  sorts (@by_count_desc Z)
  ∧ lock (table ranked_state) = Unlocked
  ∧ allocated ranked_state
  ∧ (∃ r, MostAccessed by_count_desc (map_to_list ranked_items) 99
            ranked_state = Ok r ranked_state
       ∧ length r = 99 `min` size ranked_items)
  ∧ (∃ r, MostAccessed by_count_desc (map_to_list ranked_items) 200
            ranked_state = Ok r ranked_state
       ∧ length r = 200 `min` size ranked_items).
Proof.
  split; [exact by_count_desc_sorts|]. split; [reflexivity|].
  split; [exact ranked_state_allocated|].
  destruct (MostAccessed_size by_count_desc (map_to_list ranked_items) 99
              ranked_state by_count_desc_sorts eq_refl ranked_state_allocated
              (reflexivity _)) as (r & Hrun & Hlen & _).
  destruct (MostAccessed_size by_count_desc (map_to_list ranked_items) 200
              ranked_state by_count_desc_sorts eq_refl ranked_state_allocated
              (reflexivity _)) as (r' & Hrun' & Hlen' & _).
  split; [by exists r|by exists r'].
Defined.

(** [TestCallbackQueue] after its callbacks were removed. *)
Lemma removed_callbacks_are_silent_witness :
  lock (table callbacks_state) = Unlocked
  ∧ items (table callbacks_state) !! "testkey" = Some 0
  ∧ (∃ s1 p s2, RemoveAddedItemCallbacks callbacks_state = Ok tt s1
       ∧ Set_ "testkey" (500 * Millisecond) (Some "testvalue") s1 = Ok p s2
       ∧ trace s2 = [])
  ∧ (∃ s1 s2, RemoveAboutToDeleteItemCallback callbacks_state = Ok tt s1
       ∧ Delete "testkey" s1 = Ok (Some 0, None) s2
       ∧ trace s2
         = map (λ f, CallAboutToExpire f "testkey" (table s1))
             ["expiring1"; "expiring2"]).
Proof.
  split; [reflexivity|]. split; [reflexivity|].
  destruct (removed_callbacks_are_silent "testkey"
              (500 * Millisecond) (Some "testvalue") 0 _ callbacks_state
              eq_refl eq_refl eq_refl)
    as [_ (s1 & s2 & Hrm & _ & _ & Hdel & Htr)].
  destruct (removed_callbacks_are_silent "testkey"
              (500 * Millisecond) (Some "testvalue") 0 _ callbacks_state
              eq_refl eq_refl eq_refl)
    as [(s1' & p & s2' & Hrm' & _ & _ & Hset & Htr') _].
  split; [by exists s1', p, s2'|by exists s1, s2].
Defined.

(** The lines of [TestLogger]. *)
Lemma log_lines_witness :
  lock (table logged_state) = Unlocked
  ∧ items (table logged_state) !! "odd" = Some 0
  ∧ (∃ p s', Set_ "odd" 0%Z (Some "v") logged_state = Ok p s'
       ∧ lines_since logged_state s' = [LogAdding "odd" 0 "testLogger"])
  ∧ (∃ s', Delete "odd" logged_state = Ok (Some 0, None) s'
       ∧ lines_since logged_state s'
         = [LogDeleting "odd" 0 0 "testLogger"])
  ∧ (∃ s', Flush logged_state = Ok tt s'
       ∧ lines_since logged_state s' = [LogFlushing "testLogger"]).
Proof.
  split; [reflexivity|]. split; [reflexivity|].
  exact (log_lines "odd" 0%Z (Some "v") 0 _ logged_state
           eq_refl eq_refl eq_refl).
Defined.

(** Swapping the first and the last of three pairs. *)
Lemma pair_list_sorts_witness :
  0 < Len three_pairs ∧ 2 < Len three_pairs
  ∧ ∃ p', Swap three_pairs 0 2 = Some p'
      ∧ Len p' = 3
      ∧ p' !! 0 = Some (Build_CacheItemPair "c" 2)
      ∧ p' !! 2 = Some (Build_CacheItemPair "a" 1)
      ∧ Swap p' 0 2 = Some three_pairs.
Proof.
  assert (0 < Len three_pairs) as H0 by (vm_compute; lia).
  assert (2 < Len three_pairs) as H2 by (vm_compute; lia).
  split; [exact H0|]. split; [exact H2|].
  destruct (@pair_list_sorts string) as (_ & _ & _ & _ & Hswap & _).
  destruct (Hswap three_pairs 0 2 H0 H2)
    as (p' & Hrun & Hlen & Hi & Hj & _ & Hback).
  by exists p'.
Defined.
